(** * Othello: a shallow embedding of [othello.py] and its verified properties

    The development follows the source file top to bottom: the data model
    ([Color], [Coordinate], [Board]), Python's list indexing with its
    negative indices and [IndexError], then [parse_coordinate],
    [count_tokens_and_determine_winner], [find_adjacent],
    [is_flippable_line], [valid_move], [do_flip] and one iteration of the
    [while True] loop of [play_game].  Theorems come after the definitions. *)

From Stdlib Require Import ZArith Lia Bool Ascii String.
From stdpp Require Import base tactics option list strings pretty.

Local Open Scope Z_scope.

(** ** Exceptions and results *)

(** The exceptions the program can raise or handle. *)
Inductive exn : Type :=
  | CoordinateParseError (msg : string)
  | IndexError
  | RecursionError
  | StopIteration
  | EOFError
  | KeyboardInterrupt.

(** The outcome of a Python call: a value, a raised exception, or [Timeout]
    when the iteration budget the model gives to a [while] loop is used up
    (the loop is still running; the model then says nothing more). *)
Inductive result (A : Type) : Type :=
  | Ok (a : A)
  | Raise (e : exn)
  | Timeout.
Arguments Ok {A} a.
Arguments Raise {A} e.
Arguments Timeout {A}.

#[global] Instance result_ret : MRet result := fun A a => Ok a.
#[global] Instance result_bind : MBind result := fun A B f m =>
  match m with
  | Ok a => f a
  | Raise e => Raise e
  | Timeout => Timeout
  end.

(** ** Data model *)

Inductive Color : Type := BLACK | WHITE.

#[global] Instance Color_eq_dec : EqDecision Color.
Proof. solve_decision. Defined.

(** A board position holds [None] or a [Color]. *)
Abbreviation Cell := (option Color) (only parsing).

(** [Coordinate = typing.Tuple[int, int]]: a (row, col) pair of Python ints. *)
Abbreviation Coordinate := (Z * Z)%type (only parsing).

(** [Board = typing.List[typing.List[Color]]].  The rows are separate list
    objects ([[None] * SIZE for _ in range(SIZE)]), so a list of lists by
    value describes the board. *)
Abbreviation Board := (list (list Cell)) (only parsing).

Definition SIZE : Z := 8.

(** ** Python list indexing *)

(** [l[i]]: a negative index counts from the end, an index outside
    [-len(l) .. len(l)-1] raises [IndexError]. *)
Definition py_index (len i : Z) : option nat :=
  let j := if i <? 0 then i + len else i in
  if (0 <=? j) && (j <? len) then Some (Z.to_nat j) else None.

Definition getitem {A : Type} (l : list A) (i : Z) : result A :=
  match py_index (Z.of_nat (length l)) i with
  | Some k =>
      match l !! k with
      | Some x => Ok x
      | None => Raise IndexError
      end
  | None => Raise IndexError
  end.

(** [l[i] = x]. *)
Definition setitem {A : Type} (l : list A) (i : Z) (x : A) : result (list A) :=
  match py_index (Z.of_nat (length l)) i with
  | Some k => Ok (<[k := x]> l)
  | None => Raise IndexError
  end.

(** [board[row][col]]. *)
Definition board_get (board : Board) (row col : Z) : result Cell :=
  r ← getitem board row; getitem r col.

(** [board[row][col] = v]: the row object is fetched and updated in place,
    which in the by-value model replaces that row of the outer list. *)
Definition board_set (board : Board) (row col : Z) (v : Cell) : result Board :=
  r ← getitem board row;
  r' ← setitem r col v;
  setitem board row r'.

(** ** [parse_coordinate] *)

(** [ord] of a character.  Strings are modelled as sequences of 8-bit code
    points. *)
Definition ord (c : ascii) : Z := Z.of_N (N_of_ascii c).

(** [str.lower()] on code points below 256: [A]-[Z] and the Latin-1
    capitals [U+00C0]-[U+00DE] (without the multiplication sign [U+00D7])
    move up by 32, every other code point is kept. *)
Definition lower_char (c : ascii) : ascii :=
  let n := ord c in
  if ((65 <=? n) && (n <=? 90))
     || ((192 <=? n) && (n <=? 222) && negb (n =? 215))
  then ascii_of_N (Z.to_N (n + 32)) else c.

Fixpoint lower (s : string) : string :=
  match s with
  | EmptyString => EmptyString
  | String c s' => String (lower_char c) (lower s')
  end.

(** [s[i]] on a string. *)
Definition str_getitem (s : string) (i : Z) : result ascii :=
  match py_index (Z.of_nat (String.length s)) i with
  | Some k =>
      match String.get k s with
      | Some c => Ok c
      | None => Raise IndexError
      end
  | None => Raise IndexError
  end.

Definition parse_coordinate (str : string) : result Coordinate :=
  if negb (Z.of_nat (String.length str) =? 2) then
    Raise (CoordinateParseError "Input must be length 2")
  else
    let str := lower str in
    c1 ← str_getitem str 1;
    let row := ord c1 - ord "1"%char in
    if negb ((0 <=? row) && (row <? SIZE)) then
      Raise (CoordinateParseError "Row out of bounds")
    else
      c0 ← str_getitem str 0;
      let col := ord c0 - ord "a"%char in
      if negb ((0 <=? col) && (col <? SIZE)) then
        Raise (CoordinateParseError "Col out of bounds")
      else Ok (row, col).

(** ** [find_adjacent], [is_flippable_line], [valid_move] *)

(** The eight neighbours, in the order of the source. *)
Definition adjacents (move : Coordinate) : list Coordinate :=
  [ (move.1 + 1, move.2);
    (move.1 - 1, move.2);
    (move.1, move.2 + 1);
    (move.1, move.2 - 1);
    (move.1 + 1, move.2 + 1);
    (move.1 + 1, move.2 - 1);
    (move.1 - 1, move.2 + 1);
    (move.1 - 1, move.2 - 1) ].

(** The [for adj_row, adj_col in adjacents] loop with its
    [try ... except IndexError: continue]. *)
Fixpoint find_adjacent_loop (board : Board) (adjs : list Coordinate)
    (opposite_color : Color) : result bool :=
  match adjs with
  | [] => Ok false
  | (adj_row, adj_col) :: rest =>
      match board_get board adj_row adj_col with
      | Ok cell =>
          if decide (cell = Some opposite_color) then Ok true
          else find_adjacent_loop board rest opposite_color
      | Raise IndexError => find_adjacent_loop board rest opposite_color
      | Raise e => Raise e
      | Timeout => Timeout
      end
  end.

Definition find_adjacent (board : Board) (move : Coordinate) (color : Color)
    : result bool :=
  let opposite_color := if decide (color = WHITE) then BLACK else WHITE in
  find_adjacent_loop board (adjacents move) opposite_color.

(** The bounds test [0 <= row < SIZE and 0 <= col < SIZE]. *)
Definition in_bounds (row col : Z) : bool :=
  (0 <=? row) && (row <? SIZE) && (0 <=? col) && (col <? SIZE).

(** [is_flippable_line] is recursive on the coordinate; [depth] is the
    number of stack frames still available, and CPython raises
    [RecursionError] when they are used up. *)
Fixpoint is_flippable_line_rec (depth : nat) (board : Board)
    (move : Coordinate) (color : Color) (direction : Z * Z)
    (found_opponent : bool) : result bool :=
  match depth with
  | O => Raise RecursionError
  | S depth' =>
      let '(row, col) := move in
      let '(d_row, d_col) := direction in
      let row := row + d_row in
      let col := col + d_col in
      if negb (in_bounds row col) then Ok false
      else
        c1 ← board_get board row col;
        if decide (c1 = None) then Ok false
        else
          c2 ← board_get board row col;
          if decide (c2 = Some color) then Ok found_opponent
          else is_flippable_line_rec depth' board (row, col) color direction true
  end.

(** CPython's default [sys.getrecursionlimit()]. *)
Definition recursion_limit : nat := 1000.

Definition is_flippable_line (board : Board) (move : Coordinate)
    (color : Color) (direction : Z * Z) : result bool :=
  is_flippable_line_rec recursion_limit board move color direction false.

Definition directions : list (Z * Z) :=
  [(1, 0); (-1, 0); (0, 1); (0, -1); (1, 1); (1, -1); (-1, 1); (-1, -1)].

(** The [for direction in directions] loop of [valid_move]. *)
Fixpoint any_flippable (board : Board) (move : Coordinate) (color : Color)
    (dirs : list (Z * Z)) : result bool :=
  match dirs with
  | [] => Ok false
  | direction :: rest =>
      is_flippable_line board move color direction ≫= λ f : bool,
      if f then Ok true else any_flippable board move color rest
  end.

Definition valid_move (board : Board) (color : Color) (move : Coordinate)
    : result bool :=
  if negb (in_bounds move.1 move.2) then Ok false
  else
    cell ← board_get board move.1 move.2;
    if negb (bool_decide (cell = None)) then Ok false
    else
      adj ← find_adjacent board move color;
      if negb adj then Ok false
      else any_flippable board move color directions.

(** The board [play_game] builds before its loop. *)
Definition new_board : result Board :=
  let board := replicate (Z.to_nat SIZE) (replicate (Z.to_nat SIZE) (None : Cell)) in
  board ← board_set board 3 3 (Some BLACK);
  board ← board_set board 3 4 (Some WHITE);
  board ← board_set board 4 3 (Some WHITE);
  board_set board 4 4 (Some BLACK).

(** The value of [new_board]: the opening position of the source's
    docstring, Black on d4 and e5, White on e4 and d5. *)
Definition initial_board : Board :=
  [ [None; None; None; None; None; None; None; None];
    [None; None; None; None; None; None; None; None];
    [None; None; None; None; None; None; None; None];
    [None; None; None; Some BLACK; Some WHITE; None; None; None];
    [None; None; None; Some WHITE; Some BLACK; None; None; None];
    [None; None; None; None; None; None; None; None];
    [None; None; None; None; None; None; None; None];
    [None; None; None; None; None; None; None; None] ].

(** [no_valid_moves]: the two nested [range(SIZE)] loops visit the
    coordinates in row-major order and stop at the first valid move. *)
Definition all_coordinates : list Coordinate :=
  row ← seqZ 0 SIZE; col ← seqZ 0 SIZE; [(row, col)].

Fixpoint no_valid_moves_loop (board : Board) (color : Color)
    (coords : list Coordinate) : result bool :=
  match coords with
  | [] => Ok true
  | move :: rest =>
      valid_move board color move ≫= λ v : bool,
      if v then Ok false else no_valid_moves_loop board color rest
  end.

Definition no_valid_moves (board : Board) (color : Color) : result bool :=
  no_valid_moves_loop board color all_coordinates.

(** ** [is_board_full] and [count_tokens_and_determine_winner] *)

Definition is_board_full (board : Board) : bool :=
  forallb (forallb (λ cell : Cell, negb (bool_decide (cell = None)))) board.

(** The tally loops: the pair is ([black_count], [white_count]). *)
Definition count_cell (acc : Z * Z) (cell : Cell) : Z * Z :=
  if decide (cell = Some BLACK) then (acc.1 + 1, acc.2)
  else if decide (cell = Some WHITE) then (acc.1, acc.2 + 1)
  else acc.

Definition count_tokens (board : Board) : Z * Z :=
  fold_left (λ acc row, fold_left count_cell row acc) board (0, 0).

Definition count_tokens_and_determine_winner (board : Board) : string :=
  let '(black_count, white_count) := count_tokens board in
  if black_count >? white_count then "Black wins!"
  else if white_count >? black_count then "White wins!"
  else "It's a tie!".

(** ** [do_flip] *)

(** The [while board[row][col] != color] loop of [flip_line].  [budget]
    bounds the number of times the body runs.  Besides the board the model
    returns the list of index pairs at which [board[row][col]] was
    evaluated, in order. *)
Fixpoint flip_line_loop (budget : nat) (board : Board) (row col : Z)
    (color : Color) (d_row d_col : Z) (seen : list Coordinate)
    : result (Board * list Coordinate) :=
  cell ← board_get board row col;
  if decide (cell = Some color) then Ok (board, seen ++ [(row, col)])
  else
    match budget with
    | O => Timeout
    | S budget' =>
        board' ← board_set board row col (Some color);
        flip_line_loop budget' board' (row + d_row) (col + d_col)
          color d_row d_col (seen ++ [(row, col)])
    end.

Definition flip_line_budget (budget : nat) (board : Board) (move : Coordinate)
    (color : Color) (direction : Z * Z) : result (Board * list Coordinate) :=
  let '(row, col) := move in
  let '(d_row, d_col) := direction in
  let row := row + d_row in
  let col := col + d_col in
  flip_line_loop budget board row col color d_row d_col [].

(** The budget used inside [do_flip]; a line of the board has 8 cells. *)
Definition while_budget : nat := 64.

Definition flip_line : Board → Coordinate → Color → Z * Z
    → result (Board * list Coordinate) :=
  flip_line_budget while_budget.

(** A [for x in l] loop that threads the mutated board through its body
    and leaves at the first exception. *)
Fixpoint for_each {A S : Type} (body : S → A → result S) (s : S)
    (l : list A) : result S :=
  match l with
  | [] => Ok s
  | x :: rest => s' ← body s x; for_each body s' rest
  end.

(** The body of the [for direction in directions] loop of [do_flip]. *)
Definition do_flip_direction (color : Color) (move : Coordinate)
    (board : Board) (direction : Z * Z) : result Board :=
  is_flippable_line board move color direction ≫= λ f : bool,
  if f then r ← flip_line board move color direction; Ok r.1
  else Ok board.

Definition do_flip (board : Board) (color : Color) (move : Coordinate)
    : result Board :=
  for_each (do_flip_direction color move) board directions.

(** Lines 298-299 of [play_game]: the placement followed by [do_flip]. *)
Definition apply_move (board : Board) (color : Color) (move : Coordinate)
    : result Board :=
  board ← board_set board move.1 move.2 (Some color);
  do_flip board color move.

(** ** [board_str] *)

Definition newline : string := String (ascii_of_nat 10) EmptyString.

(** [position.value if position else ' '] *)
Definition position_str (position : Cell) : string :=
  match position with
  | Some BLACK => "B"
  | Some WHITE => "W"
  | None => " "
  end.

Definition board_str (board : Board) : string :=
  let header :=
    "  " +:+ String.concat " "
      (map (λ i : Z, String (ascii_of_N (Z.to_N (ord "a"%char + i))) EmptyString)
           (seqZ 0 SIZE)) +:+ newline in
  fold_left
    (λ (result : string) (ir : nat * list Cell),
       result +:+ pretty (ir.1 + 1)%nat +:+ " "
         +:+ String.concat " " (map position_str ir.2) +:+ newline)
    (imap pair board) header.

(** ** [play_game] *)

(** [str.rstrip()]: trailing white space is removed (the white-space code
    points below 256). *)
Definition is_space (c : ascii) : bool :=
  let n := ord c in
  ((9 <=? n) && (n <=? 13)) || ((28 <=? n) && (n <=? 32))
  || (n =? 133) || (n =? 160).

Fixpoint rstrip (s : string) : string :=
  match s with
  | EmptyString => EmptyString
  | String c s' =>
      match rstrip s' with
      | EmptyString => if is_space c then EmptyString else String c EmptyString
      | t => String c t
      end
  end.

(** [turn.name.lower()] *)
Definition color_name (c : Color) : string :=
  match c with BLACK => "black" | WHITE => "white" end.

(** The local variables of [play_game] at the head of its [while True]
    loop.  [input] lists what the coming calls of [next(input)] give: a line
    or an exception; when the list is used up, [next] raises
    [StopIteration]. *)
Record state : Type := State {
  board : Board;
  turn : Color;
  skip : Z;
  input : list (result string)
}.

Definition next (inp : list (result string)) : result string * list (result string) :=
  match inp with
  | [] => (Raise StopIteration, [])
  | x :: rest => (x, rest)
  end.

(** What one pass through the loop body did. *)
Inductive event : Type :=
  | Skipped        (* no valid move: the turn was passed, the loop continues *)
  | ParseFailed    (* [except CoordinateParseError]: continue *)
  | Rejected       (* "Invalid move. Try again.": continue *)
  | Applied.       (* the move was placed and flipped *)

#[global] Instance event_eq_dec : EqDecision event.
Proof. solve_decision. Defined.

(** How the loop is left. *)
Inductive ending : Type :=
  | GameOver               (* [skip >= 2]: the winner is printed, break *)
  | InputClosed            (* [except EOFError] / [except KeyboardInterrupt]: break *)
  | Uncaught (e : exn)     (* an exception no handler takes *)
  | Hung.                  (* an inner loop used up its budget *)

Inductive control : Type :=
  | Continue (ev : event) (s : state)
  | Leave (en : ending).

(** The [except] clauses of the [try] statement; [s] holds the variables as
    they were when the exception was raised. *)
Definition handle (e : exn) (out : list string) (s : state)
    : list string * control :=
  match e with
  | CoordinateParseError msg =>
      (out ++ ["Invalid move: " +:+ msg; ""], Continue ParseFailed s)
  | EOFError => (out ++ [""], Leave InputClosed)
  | KeyboardInterrupt => (out ++ [""], Leave InputClosed)
  | _ => (out, Leave (Uncaught e))
  end.

(** An exception outside the [try] statement leaves [play_game]. *)
Definition escape {A : Type} (r : result A) (out : list string)
    (k : A → list string * control) : list string * control :=
  match r with
  | Ok a => k a
  | Raise e => (out, Leave (Uncaught e))
  | Timeout => (out, Leave Hung)
  end.

(** One pass through the body of [while True]; the first component lists
    the arguments of the [print] calls, in order. *)
Definition loop_body (s : state) : list string * control :=
  let out := [board_str (board s)] in
  match no_valid_moves (board s) (turn s) with
  | Ok true =>
      let out := out ++ [color_name (turn s) +:+ " has no valid moves. Skipping turn."] in
      let turn' := if decide (turn s = BLACK) then WHITE else BLACK in
      let out := out ++ [""] in
      let skip' := skip s + 1 in
      if 2 <=? skip' then
        (out ++ [count_tokens_and_determine_winner (board s)], Leave GameOver)
      else
        (out, Continue Skipped (State (board s) turn' skip' (input s)))
  | Ok false =>
      let skip' := 0 in
      let out := out ++ ["Enter move for " +:+ color_name (turn s) +:+ ": "] in
      let '(line, input') := next (input s) in
      let s1 := State (board s) (turn s) skip' input' in
      match line with
      | Ok str =>
          match parse_coordinate (rstrip str) with
          | Ok move =>
              (* [valid_board = board.copy()]: a new outer list with the
                 same rows, read only *)
              let valid_board := board s in
              escape (valid_move valid_board (turn s) move) out (λ v : bool,
                if negb v then
                  (out ++ ["Invalid move. Try again."], Continue Rejected s1)
                else
                  escape (apply_move (board s) (turn s) move) out (λ board',
                    let turn' := if decide (turn s = BLACK) then WHITE else BLACK in
                    (out ++ [""], Continue Applied (State board' turn' skip' input'))))
          | Raise e => handle e out s1
          | Timeout => (out, Leave Hung)
          end
      | Raise e => handle e out s1
      | Timeout => (out, Leave Hung)
      end
  | Raise e => handle e out s
  | Timeout => (out, Leave Hung)
  end.

(** The state in which [play_game] enters its loop. *)
Definition initial_state (inp : list (result string)) : result state :=
  board ← new_board; Ok (State board BLACK 0 inp).

(** The states at the head of the loop that a run of [play_game] on the
    input [inp] passes through, with the events of the passes so far
    (latest first). *)
Inductive reachable (inp : list (result string)) : list event → state → Prop :=
  | reach_init s :
      initial_state inp = Ok s → reachable inp [] s
  | reach_step evs s out ev s' :
      reachable inp evs s →
      loop_body s = (out, Continue ev s') →
      reachable inp (ev :: evs) s'.

(** The number of moves applied in a history of events. *)
Definition moves_applied (evs : list event) : Z :=
  Z.of_nat (length (filter (λ ev, ev = Applied) evs)).

(** ** Specification vocabulary *)

(** The shape every board of the program has: 8 rows of 8 cells. *)
Definition wf_board (b : Board) : Prop :=
  length b = 8%nat ∧ Forall (λ row, length row = 8%nat) b.

(** The opponent of [color], as [find_adjacent] computes it. *)
Definition opponent (color : Color) : Color :=
  if decide (color = WHITE) then BLACK else WHITE.

(** The [k]-th cell outward from [move] in [direction]. *)
Definition ray (move : Coordinate) (direction : Z * Z) (k : nat) : Coordinate :=
  (move.1 + Z.of_nat k * direction.1, move.2 + Z.of_nat k * direction.2).

(** The cell [p] is on the board and holds [x]. *)
Definition cell_is (b : Board) (p : Coordinate) (x : Cell) : Prop :=
  in_bounds p.1 p.2 = true ∧ board_get b p.1 p.2 = Ok x.

(** The cells [1 .. n] outward from [move] hold the opponent's colour and
    cell [n + 1] holds the mover's colour. *)
Definition bookended (b : Board) (move : Coordinate) (color : Color)
    (direction : Z * Z) (n : nat) : Prop :=
  (∀ k : nat, (1 ≤ k ≤ n)%nat → cell_is b (ray move direction k) (Some (opponent color)))
  ∧ cell_is b (ray move direction (n + 1)) (Some color).

(** A flippable line, in the words of the specification: one or more
    opponent cells, immediately followed by a cell of the mover, with no
    empty cell and no board edge before it. *)
Definition flippable_line (b : Board) (move : Coordinate) (color : Color)
    (direction : Z * Z) : Prop :=
  ∃ n : nat, (1 ≤ n)%nat ∧ bookended b move color direction n.

(** [p] is an opponent cell of a flippable line along one of the
    directions [ds], before the bookend. *)
Definition flipped_along (b : Board) (move : Coordinate) (color : Color)
    (ds : list (Z * Z)) (p : Coordinate) : Prop :=
  ∃ (d : Z * Z) (n k : nat),
    d ∈ ds ∧ (1 ≤ n)%nat ∧ bookended b move color d n
    ∧ (1 ≤ k ≤ n)%nat ∧ p = ray move d k.

(** [p] is one of the cells that a move at [move] turns over. *)
Definition flipped_by (b : Board) (move : Coordinate) (color : Color)
    (p : Coordinate) : Prop :=
  flipped_along b move color directions p.

(** The number of occupied cells: [black_count + white_count]. *)
Definition occupied (b : Board) : Z :=
  (count_tokens b).1 + (count_tokens b).2.

(** [board[row][col]] at non-negative indices, as a double lookup. *)
Definition lookup2 (b : Board) (r c : nat) : option Cell :=
  row ← b !! r; row !! c.

(** [valid_move] without its adjacency pre-check (the same function with
    the [find_adjacent] test removed). *)
Definition valid_move_without_find_adjacent (board : list (list (option Color)))
    (color : Color) (move : Z * Z) : result bool :=
  if negb (in_bounds move.1 move.2) then Ok false
  else
    cell ← board_get board move.1 move.2;
    if negb (bool_decide (cell = None)) then Ok false
    else any_flippable board move color directions.

(** The number of cells of a row, and of a board, that hold [c]. *)
Definition holds (c : Color) (x : option Color) : Z :=
  if decide (x = Some c) then 1 else 0.

Fixpoint count_row (c : Color) (row : list (option Color)) : Z :=
  match row with
  | [] => 0
  | x :: rest => holds c x + count_row c rest
  end.

Fixpoint count_color (c : Color) (b : list (list (option Color))) : Z :=
  match b with
  | [] => 0
  | row :: rest => count_row c row + count_color c rest
  end.

(** The boards [b1] and [b2] hold the same cells along the rays of [ds]
    from [move]. *)
Definition agree_on_rays (b1 b2 : list (list (option Color))) (move : Z * Z)
    (ds : list (Z * Z)) : Prop :=
  ∀ d (k : nat), d ∈ ds → (1 ≤ k)%nat →
    let p := ray move d k in
    in_bounds p.1 p.2 = true → board_get b1 p.1 p.2 = board_get b2 p.1 p.2.

(** The player who moves after [c]. *)
Definition other_player (c : Color) : Color :=
  if decide (c = BLACK) then WHITE else BLACK.

(** What a pass did, read off its result. *)
Definition pass_spec (s : state) (out : list string) (ctl : control) : Prop :=
  match ctl with
  | Continue Skipped s' =>
      no_valid_moves (board s) (turn s) = Ok true
      ∧ skip s + 1 < 2
      ∧ s' = State (board s) (other_player (turn s)) (skip s + 1) (input s)
  | Continue ParseFailed s' =>
      no_valid_moves (board s) (turn s) = Ok false
      ∧ s' = State (board s) (turn s) 0 (next (input s)).2
      ∧ ∃ msg,
          (next (input s)).1 = Raise (CoordinateParseError msg)
          ∨ ∃ str, (next (input s)).1 = Ok str
              ∧ parse_coordinate (rstrip str) = Raise (CoordinateParseError msg)
  | Continue Rejected s' =>
      no_valid_moves (board s) (turn s) = Ok false
      ∧ s' = State (board s) (turn s) 0 (next (input s)).2
      ∧ ∃ str move,
          (next (input s)).1 = Ok str
          ∧ parse_coordinate (rstrip str) = Ok move
          ∧ valid_move (board s) (turn s) move = Ok false
  | Continue Applied s' =>
      no_valid_moves (board s) (turn s) = Ok false
      ∧ ∃ str move board',
          (next (input s)).1 = Ok str
          ∧ parse_coordinate (rstrip str) = Ok move
          ∧ valid_move (board s) (turn s) move = Ok true
          ∧ apply_move (board s) (turn s) move = Ok board'
          ∧ s' = State board' (other_player (turn s)) 0 (next (input s)).2
  | Leave GameOver =>
      no_valid_moves (board s) (turn s) = Ok true
      ∧ 2 ≤ skip s + 1
      ∧ out = [ board_str (board s);
                color_name (turn s) +:+ " has no valid moves. Skipping turn.";
                "";
                count_tokens_and_determine_winner (board s) ]
  | Leave _ => True
  end.

(** [r] is the boolean [v]. *)
Definition result_is (r : result bool) (v : bool) : bool :=
  match r with
  | Ok x => Bool.eqb x v
  | _ => false
  end.

(** A board with a single White disc, at (7,0). *)
Definition wrap_board : Board :=
  replicate 7 (replicate 8 None)
  ++ [ [Some WHITE; None; None; None; None; None; None; None] ].

(** A move token, in the words of the specification: two characters, a
    column letter a-h in either case, then a row digit 1-8. *)
Definition is_move_token (s : string) : Prop :=
  ∃ c d : ascii,
    s = String c (String d EmptyString)
    ∧ ((ord "a" ≤ ord c ≤ ord "h") ∨ (ord "A" ≤ ord c ≤ ord "H"))
    ∧ ord "1" ≤ ord d ≤ ord "8".

(** At most [n] passes through the loop from [s], stopping when the loop
    is left; [evs] are the events so far, latest first. *)
Fixpoint run_passes (n : nat) (s : state) (evs : list event) : list event * state :=
  match n with
  | O => (evs, s)
  | S n' =>
      match loop_body s with
      | (_, Continue ev s') => run_passes n' s' (ev :: evs)
      | (_, Leave _) => (evs, s)
      end
  end.

(** The lines of a nine-move game in which Black takes every disc. *)
Definition wipeout_input : list (result string) :=
  map (λ move : string, Ok (move +:+ newline))
      ["d6"; "c4"; "d3"; "c6"; "b5"; "e6"; "d7"; "c5"; "f5"].

(** The state at the head of the loop after the nine moves and the skipped
    turn of White. *)
Definition wipeout_state : state :=
  State
    [ [None; None; None; None; None; None; None; None];
      [None; None; None; None; None; None; None; None];
      [None; None; None; Some BLACK; None; None; None; None];
      [None; None; Some BLACK; Some BLACK; Some BLACK; None; None; None];
      [None; Some BLACK; Some BLACK; Some BLACK; Some BLACK; Some BLACK; None; None];
      [None; None; Some BLACK; Some BLACK; Some BLACK; None; None; None];
      [None; None; None; Some BLACK; None; None; None; None];
      [None; None; None; None; None; None; None; None] ]
    BLACK 1 [].

Definition wipeout_events : list event :=
  Skipped :: replicate 9 Applied.

(** A board on which every cell holds a Black disc. *)
Definition full_board : Board :=
  replicate 8 (replicate 8 (Some BLACK)).


(** Every character of [w] is white space. *)
Fixpoint all_space (w : string) : bool :=
  match w with
  | EmptyString => true
  | String c w' => is_space c && all_space w'
  end.

(** The number of passes in a history that gave the turn to the other
    player, and the number of passes that read a line of input. *)
Definition turns_taken (evs : list event) : nat :=
  length (filter (λ ev, ev = Applied ∨ ev = Skipped) evs).

Definition lines_read (evs : list event) : nat :=
  length (filter (λ ev, ev ≠ Skipped) evs).

(** The character that [board_str] shows for a position. *)
Definition position_char (position : Cell) : ascii :=
  match position with
  | Some BLACK => "B"%char
  | Some WHITE => "W"%char
  | None => " "%char
  end.

(** The board with the colours of all discs exchanged. *)
Definition swap_cell (x : Cell) : Cell := opponent <$> x.

Definition swap_board (b : Board) : Board :=
  (λ row : list Cell, swap_cell <$> row) <$> b.

(** * Proofs *)

Arguments is_flippable_line : simpl never.
Arguments find_adjacent : simpl never.
Arguments any_flippable : simpl nomatch.
Arguments valid_move : simpl never.
Arguments flip_line : simpl never.
Arguments do_flip : simpl never.
Arguments apply_move : simpl never.
Arguments no_valid_moves : simpl never.
Arguments count_tokens_and_determine_winner : simpl never.
Arguments board_str : simpl never.

(** ** List indexing *)

Lemma in_bounds_true r c :
  in_bounds r c = true ↔ 0 ≤ r < 8 ∧ 0 ≤ c < 8.
Proof. unfold in_bounds, SIZE. rewrite !andb_true_iff. lia. Qed.

Lemma in_bounds_false r c :
  in_bounds r c = false ↔ ¬ (0 ≤ r < 8 ∧ 0 ≤ c < 8).
Proof. rewrite <- in_bounds_true. destruct (in_bounds r c); naive_solver. Qed.

Lemma py_index_nonneg len i :
  0 ≤ i → py_index len i = if i <? len then Some (Z.to_nat i) else None.
Proof.
  intros Hi. unfold py_index.
  destruct (i <? 0) eqn:E0; [lia|].
  destruct (0 <=? i) eqn:E1; [done | lia].
Qed.

Lemma getitem_nonneg {A} (l : list A) i :
  0 ≤ i →
  getitem l i = match l !! Z.to_nat i with Some x => Ok x | None => Raise IndexError end.
Proof.
  intros Hi. unfold getitem. rewrite py_index_nonneg by done.
  destruct (i <? Z.of_nat (length l)) eqn:E.
  - done.
  - rewrite (proj2 (lookup_ge_None l (Z.to_nat i))); [done | lia].
Qed.

Lemma setitem_nonneg {A} (l : list A) i x :
  0 ≤ i →
  setitem l i x =
    if decide (Z.to_nat i < length l)%nat then Ok (<[Z.to_nat i := x]> l)
    else Raise IndexError.
Proof.
  intros Hi. unfold setitem. rewrite py_index_nonneg by done.
  destruct (i <? Z.of_nat (length l)) eqn:E; case_decide; try done; lia.
Qed.

Lemma board_get_nonneg b r c :
  0 ≤ r → 0 ≤ c →
  board_get b r c =
    match lookup2 b (Z.to_nat r) (Z.to_nat c) with
    | Some x => Ok x
    | None => Raise IndexError
    end.
Proof.
  intros Hr Hc. unfold board_get, lookup2. rewrite getitem_nonneg by done.
  destruct (b !! Z.to_nat r) as [row|]; simpl; [|done].
  by rewrite getitem_nonneg.
Qed.

Lemma getitem_no_timeout {A} (l : list A) i : getitem l i ≠ Timeout.
Proof. unfold getitem. repeat case_match; done. Qed.

Lemma getitem_raise {A} (l : list A) i e : getitem l i = Raise e → e = IndexError.
Proof. unfold getitem. repeat case_match; congruence. Qed.

(** [board[row][col]] gives a cell or raises [IndexError], nothing else. *)
Lemma board_get_cases b r c :
  (∃ x, board_get b r c = Ok x) ∨ board_get b r c = Raise IndexError.
Proof.
  unfold board_get. destruct (getitem b r) as [row| e |] eqn:E1; simpl.
  - destruct (getitem row c) as [x| e |] eqn:E2; [eauto | | ].
    + right. by rewrite (getitem_raise _ _ _ E2).
    + by destruct (getitem_no_timeout row c).
  - right. by rewrite (getitem_raise _ _ _ E1).
  - by destruct (getitem_no_timeout b r).
Qed.

Lemma wf_lookup2 b r c :
  wf_board b → (r < 8)%nat → (c < 8)%nat → is_Some (lookup2 b r c).
Proof.
  intros [Hlen Hrows] Hr Hc. unfold lookup2.
  destruct (lookup_lt_is_Some_2 b r) as [row Hrow]; [lia|].
  rewrite Hrow. simpl. apply lookup_lt_is_Some_2.
  rewrite Forall_lookup in Hrows. rewrite (Hrows _ _ Hrow). done.
Qed.

(** On a well-formed board every in-bounds read gives a cell. *)
Lemma board_get_total b r c :
  wf_board b → in_bounds r c = true → ∃ x, board_get b r c = Ok x.
Proof.
  intros Hwf [Hr Hc]%in_bounds_true.
  rewrite board_get_nonneg by lia.
  destruct (wf_lookup2 b (Z.to_nat r) (Z.to_nat c) Hwf) as [x ->]; [lia..|].
  eauto.
Qed.

(** A write at non-negative indices where a read succeeds: it succeeds,
    the cell holds the new value, every other cell is unchanged, and the
    shape of the board is kept. *)
Lemma board_set_spec b r c x v :
  0 ≤ r → 0 ≤ c → board_get b r c = Ok x →
  ∃ b', board_set b r c v = Ok b'
    ∧ board_get b' r c = Ok v
    ∧ (∀ r' c', 0 ≤ r' → 0 ≤ c' → (r', c') ≠ (r, c) →
         board_get b' r' c' = board_get b r' c')
    ∧ (wf_board b → wf_board b')
    ∧ ∃ row, b !! Z.to_nat r = Some row
        ∧ row !! Z.to_nat c = Some x
        ∧ b' = <[Z.to_nat r := <[Z.to_nat c := v]> row]> b.
Proof.
  intros Hr Hc Hget.
  rewrite board_get_nonneg in Hget by done. unfold lookup2 in Hget.
  destruct (b !! Z.to_nat r) as [row|] eqn:Hrow; simpl in Hget; [|done].
  destruct (row !! Z.to_nat c) as [x'|] eqn:Hcell; [|done].
  assert (x' = x) as -> by congruence.
  pose proof (lookup_lt_Some _ _ _ Hrow) as Hlr.
  pose proof (lookup_lt_Some _ _ _ Hcell) as Hlc.
  exists (<[Z.to_nat r := <[Z.to_nat c := v]> row]> b).
  split; [|split; [|split; [|split]]].
  - unfold board_set. rewrite getitem_nonneg, Hrow by done. simpl.
    rewrite setitem_nonneg by done. rewrite decide_True by done. simpl.
    rewrite setitem_nonneg by done. by rewrite decide_True.
  - rewrite board_get_nonneg by done. unfold lookup2.
    rewrite list_lookup_insert_eq by done. simpl.
    by rewrite list_lookup_insert_eq.
  - intros r' c' Hr' Hc' Hne. rewrite !board_get_nonneg by done. unfold lookup2.
    destruct (decide (Z.to_nat r' = Z.to_nat r)) as [Er|Er].
    + rewrite Er, list_lookup_insert_eq, Hrow by done. simpl.
      rewrite list_lookup_insert_ne; [done|].
      intros Ec. apply Hne. f_equal; lia.
    + by rewrite list_lookup_insert_ne.
  - intros [Hlen Hrows]. split.
    + by rewrite length_insert.
    + apply Forall_insert; [done|]. rewrite length_insert.
      rewrite Forall_lookup in Hrows. by apply (Hrows _ _ Hrow).
  - eauto.
Qed.

(** ** The line walk of [is_flippable_line] *)

Lemma ray_step r c dr dc (k : nat) :
  ray (r + dr, c + dc) (dr, dc) k = ray (r, c) (dr, dc) (S k).
Proof. unfold ray. simpl. f_equal; lia. Qed.

Lemma ray_one r c dr dc : ray (r, c) (dr, dc) 1 = (r + dr, c + dc).
Proof. unfold ray. simpl. f_equal; lia. Qed.

Lemma opponent_neq color : opponent color ≠ color.
Proof. by destruct color. Qed.

Lemma cell_cases color (x : Cell) :
  x = None ∨ x = Some color ∨ x = Some (opponent color).
Proof. destruct x as [[]|], color; auto. Qed.

Lemma bookended_shift b r c dr dc color n :
  cell_is b (r + dr, c + dc) (Some (opponent color)) →
  bookended b (r + dr, c + dc) color (dr, dc) n →
  bookended b (r, c) color (dr, dc) (S n).
Proof.
  intros H1 [Hrun Hend]. split.
  - intros k Hk. destruct k as [|[|k]]; [lia| |].
    + by rewrite ray_one.
    + rewrite <- ray_step. apply Hrun. lia.
  - cbn [Nat.add]. rewrite <- ray_step. done.
Qed.

Lemma bookended_unshift b r c dr dc color n :
  bookended b (r, c) color (dr, dc) (S n) →
  cell_is b (r + dr, c + dc) (Some (opponent color))
  ∧ bookended b (r + dr, c + dc) color (dr, dc) n.
Proof.
  intros [Hrun Hend]. split; [|split].
  - rewrite <- ray_one. apply Hrun. lia.
  - intros k Hk. rewrite ray_step. apply Hrun. lia.
  - rewrite ray_step. done.
Qed.

(** The length of the opponent run before the bookend is determined. *)
Lemma bookended_run_le b move color d n k :
  bookended b move color d n →
  (1 ≤ k)%nat →
  cell_is b (ray move d k) (Some (opponent color)) →
  (∀ j : nat, (1 ≤ j ≤ k)%nat → cell_is b (ray move d j) (Some (opponent color))) →
  (k ≤ n)%nat.
Proof.
  intros [Hrun Hend] Hk Hcell Hall.
  destruct (decide (k ≤ n)%nat) as [|Hgt]; [done|].
  destruct (Hall (n + 1)%nat) as [_ H1]; [lia|].
  destruct Hend as [_ H2]. rewrite H1 in H2.
  pose proof (opponent_neq color). congruence.
Qed.

(** If the recursion answers [True], the line is there. *)
Lemma is_flippable_line_rec_sound b color dr dc depth :
  ∀ r c found,
    is_flippable_line_rec depth b (r, c) color (dr, dc) found = Ok true →
    ∃ n : nat, (found = true ∨ (1 ≤ n)%nat) ∧ bookended b (r, c) color (dr, dc) n.
Proof.
  induction depth as [|depth IH]; intros r c found H; [done|].
  simpl in H.
  destruct (in_bounds (r + dr) (c + dc)) eqn:Hin; simpl in H; [|done].
  destruct (board_get b (r + dr) (c + dc)) as [x|e|] eqn:Hget; simpl in H; [|done..].
  destruct (decide (x = None)) as [->|Hx]; [done|].
  destruct (decide (x = Some color)) as [->|Hx'].
  - exists 0%nat. split; [left; congruence|]. split; [intros; lia|].
    simpl. by rewrite ray_one.
  - destruct (cell_cases color x) as [?|[?| ->]]; [done..|].
    apply IH in H as (n & _ & Hn).
    exists (S n). split; [right; lia|].
    by apply bookended_shift.
Qed.

(** If the line is there and the stack is deep enough, the recursion
    answers [True] (or [found_opponent], when the run is empty). *)
Lemma is_flippable_line_rec_complete b color dr dc n :
  ∀ depth r c found,
    (n < depth)%nat →
    bookended b (r, c) color (dr, dc) n →
    is_flippable_line_rec depth b (r, c) color (dr, dc) found
      = Ok (if n is O then found else true).
Proof.
  induction n as [|n IH]; intros depth r c found Hd Hb;
    (destruct depth as [|depth]; [lia|]); simpl.
  - destruct Hb as [_ [Hin Hget]]. rewrite ray_one in Hin, Hget. simpl in *.
    rewrite Hin, Hget. simpl. by rewrite decide_True.
  - apply bookended_unshift in Hb as [[Hin Hget] Hb]. simpl in *.
    rewrite Hin, Hget. simpl.
    rewrite decide_False by (pose proof (opponent_neq color); congruence).
    rewrite (IH depth _ _ true) by (done || lia).
    by destruct n.
Qed.

(** If the walk leaves the board after at most [m + 1] steps, a stack of
    more than [m] frames gives an answer on a well-formed board. *)
Lemma is_flippable_line_rec_total b color dr dc m :
  wf_board b →
  ∀ depth r c found,
    (m < depth)%nat →
    (let p := ray (r, c) (dr, dc) (S m) in in_bounds p.1 p.2 = false) →
    ∃ v, is_flippable_line_rec depth b (r, c) color (dr, dc) found = Ok v.
Proof.
  intros Hwf. induction m as [|m IH]; intros depth r c found Hd Hout;
    (destruct depth as [|depth]; [lia|]); simpl.
  - rewrite ray_one in Hout. simpl in Hout. rewrite Hout. simpl. eauto.
  - destruct (in_bounds (r + dr) (c + dc)) eqn:Hin; simpl; [|eauto].
    destruct (board_get_total b _ _ Hwf Hin) as [x Hget]. rewrite Hget. simpl.
    destruct (decide (x = None)); [eauto|].
    destruct (decide (x = Some color)); [eauto|].
    apply IH; [lia|]. by rewrite ray_step.
Qed.

Lemma ray_leaves_board r c dr dc :
  in_bounds r c = true → (dr, dc) ≠ (0, 0) →
  let p := ray (r, c) (dr, dc) 8 in in_bounds p.1 p.2 = false.
Proof.
  intros [Hr Hc]%in_bounds_true Hd. simpl. apply in_bounds_false.
  assert (dr ≠ 0 ∨ dc ≠ 0) as [?|?] by (destruct (decide (dr = 0)); [right; congruence | by left]);
    lia.
Qed.

Lemma recursion_limit_gt : (7 < recursion_limit)%nat.
Proof. apply Nat.ltb_lt. vm_compute. done. Qed.

(** [is_flippable_line] answers on a well-formed board, from a move on the
    board, in any direction but (0, 0). *)
Lemma is_flippable_line_total b move color d :
  wf_board b → in_bounds move.1 move.2 = true → d ≠ (0, 0) →
  ∃ v, is_flippable_line b move color d = Ok v.
Proof.
  intros Hwf Hin Hd. destruct move as [r c], d as [dr dc].
  apply (is_flippable_line_rec_total b color dr dc 7 Hwf);
    [apply recursion_limit_gt|].
  by apply ray_leaves_board.
Qed.

(** A bookended run on the board has at most 7 opponent cells. *)
Lemma bookended_short b move color d n :
  (1 ≤ n)%nat → bookended b move color d n → (n ≤ 7)%nat.
Proof.
  intros Hn [Hrun [Hend Hcol]]. destruct (Hrun 1%nat) as [H1 Hopp]; [lia|].
  destruct move as [r c], d as [dr dc]. unfold ray in *. simpl in *.
  apply in_bounds_true in H1, Hend.
  assert (dr ≠ 0 ∨ dc ≠ 0) as Hd.
  { destruct (decide (dr = 0)) as [->|]; [|by left].
    destruct (decide (dc = 0)) as [->|]; [|by right].
    rewrite !Z.mul_0_r in *. rewrite Hopp in Hcol.
    pose proof (opponent_neq color). congruence. }
  destruct Hd; nia.
Qed.

(** [is_flippable_line] decides [flippable_line]. *)
Lemma is_flippable_line_true b move color d :
  is_flippable_line b move color d = Ok true ↔ flippable_line b move color d.
Proof.
  destruct move as [r c], d as [dr dc]. split.
  - intros H. apply is_flippable_line_rec_sound in H as (n & [?|?] & Hn); [done|].
    by exists n.
  - intros (n & Hn & Hb). unfold is_flippable_line.
    rewrite (is_flippable_line_rec_complete b color dr dc n); [by destruct n; [lia|] | | done].
    pose proof (bookended_short _ _ _ _ _ Hn Hb). pose proof recursion_limit_gt. lia.
Qed.

(** ** [find_adjacent] *)

Lemma find_adjacent_loop_total b adjs opp :
  ∃ v, find_adjacent_loop b adjs opp = Ok v.
Proof.
  induction adjs as [|[r c] adjs IH]; simpl; [eauto|].
  destruct (board_get_cases b r c) as [[x ->]| ->]; [|done].
  case_decide; eauto.
Qed.

Lemma find_adjacent_loop_hit b adjs opp r c :
  (r, c) ∈ adjs → board_get b r c = Ok (Some opp) →
  find_adjacent_loop b adjs opp = Ok true.
Proof.
  intros Hel Hget. induction adjs as [|[r' c'] adjs IH]; [by apply elem_of_nil in Hel|].
  simpl. apply elem_of_cons in Hel as [[= <- <-]|Hel].
  - rewrite Hget. by rewrite decide_True.
  - destruct (board_get_cases b r' c') as [[x ->]| ->]; [|by apply IH].
    case_decide; [done | by apply IH].
Qed.

Lemma find_adjacent_total b move color : ∃ v, find_adjacent b move color = Ok v.
Proof. apply find_adjacent_loop_total. Qed.

Lemma directions_adjacent move d :
  d ∈ directions → ray move d 1 ∈ adjacents move.
Proof.
  destruct move as [r c]. unfold directions, adjacents, ray. simpl.
  rewrite !elem_of_cons, elem_of_nil.
  intros [->|[->|[->|[->|[->|[->|[->|[->|[]]]]]]]]]; simpl;
    repeat match goal with
           | |- (?a, ?b) = (?a', ?b') ∨ _ =>
               first [ left; f_equal; lia | right ]
           end.
Qed.

(** Whenever some direction forms a flippable line, the neighbour in that
    direction is an opponent disc and [find_adjacent] answers [True]. *)
Lemma flippable_find_adjacent b move color d :
  d ∈ directions → flippable_line b move color d →
  find_adjacent b move color = Ok true.
Proof.
  intros Hd (n & Hn & Hrun & _). destruct (Hrun 1%nat) as [_ Hget]; [lia|].
  unfold find_adjacent.
  apply (find_adjacent_loop_hit b _ _ (ray move d 1).1 (ray move d 1).2); [|done].
  rewrite <- surjective_pairing. by apply directions_adjacent.
Qed.

(** ** [valid_move] *)

Lemma directions_nonzero : Forall (λ d, d ≠ (0, 0)) directions.
Proof. unfold directions. repeat constructor; done. Qed.

Lemma any_flippable_spec b move color dirs :
  wf_board b → in_bounds move.1 move.2 = true →
  Forall (λ d, d ≠ (0, 0)) dirs →
  ∃ v, any_flippable b move color dirs = Ok v
     ∧ (v = true ↔ ∃ d, d ∈ dirs ∧ flippable_line b move color d).
Proof.
  intros Hwf Hin. induction 1 as [|d dirs Hd _ IH]; simpl.
  - exists false. split; [done|]. split; [done|].
    intros (d & Hel & _). by apply elem_of_nil in Hel.
  - destruct (is_flippable_line_total b move color d Hwf Hin Hd) as [f Hf].
    rewrite Hf. simpl. destruct f.
    + exists true. split; [done|]. split; [|done]. intros _.
      exists d. split; [left|]. by apply is_flippable_line_true.
    + destruct IH as (v & -> & Hv). exists v. split; [done|].
      rewrite Hv. split.
      * intros (d' & Hel & Hfl). exists d'. split; [by right | done].
      * intros (d' & [->|Hel]%elem_of_cons & Hfl); [|eauto].
        apply is_flippable_line_true in Hfl. congruence.
Qed.

Lemma valid_move_spec b color move :
  wf_board b →
  ∃ v, valid_move b color move = Ok v
     ∧ (v = true ↔
          in_bounds move.1 move.2 = true
          ∧ board_get b move.1 move.2 = Ok None
          ∧ ∃ d, d ∈ directions ∧ flippable_line b move color d).
Proof.
  intros Hwf. unfold valid_move.
  set (af := any_flippable b move color directions).
  destruct (in_bounds move.1 move.2) eqn:Hin; simpl.
  2: { exists false. split; [done|]. split; [done|]. by intros [? _]. }
  destruct (board_get_total b _ _ Hwf Hin) as [x Hget]. rewrite Hget. simpl.
  destruct x as [x|]; simpl.
  { exists false. split; [done|]. split; [done|]. by intros (_ & ? & _). }
  destruct (any_flippable_spec b move color directions Hwf Hin directions_nonzero)
    as (v & Hany & Hv). fold af in Hany.
  destruct (find_adjacent_total b move color) as [adj Hadj]. rewrite Hadj. simpl.
  destruct adj; simpl.
  - exists v. split; [done|]. rewrite Hv. split; [by intros ?|by intros (_ & _ & ?)].
  - exists false. split; [done|]. split; [done|].
    intros (_ & _ & d & Hel & Hfl).
    rewrite (flippable_find_adjacent b move color d Hel Hfl) in Hadj. done.
Qed.

Lemma valid_move_without_find_adjacent_eq b color move :
  wf_board b →
  valid_move b color move = valid_move_without_find_adjacent b color move.
Proof.
  intros Hwf. unfold valid_move, valid_move_without_find_adjacent.
  set (af := any_flippable b move color directions).
  destruct (in_bounds move.1 move.2) eqn:Hin; simpl; [|done].
  destruct (board_get_total b _ _ Hwf Hin) as [x Hget]. rewrite Hget. simpl.
  destruct x as [x|]; simpl; [done|].
  destruct (any_flippable_spec b move color directions Hwf Hin directions_nonzero)
    as (v & Hany & Hv). fold af in Hany.
  destruct (find_adjacent_total b move color) as [adj Hadj]. rewrite Hadj. simpl.
  destruct adj; simpl; [done|].
  rewrite Hany. destruct v; [|done].
  destruct (proj1 Hv eq_refl) as (d & Hel & Hfl).
  rewrite (flippable_find_adjacent b move color d Hel Hfl) in Hadj. done.
Qed.

(** ** Counting discs *)

Lemma fold_count_cell row acc :
  fold_left count_cell row acc
  = (acc.1 + count_row BLACK row, acc.2 + count_row WHITE row).
Proof.
  revert acc. induction row as [|x row IH]; intros [a w]; simpl.
  - f_equal; lia.
  - rewrite IH. unfold count_cell, holds. simpl.
    destruct x as [[]|]; simpl; f_equal; lia.
Qed.

Lemma fold_count_rows b acc :
  fold_left (λ acc row, fold_left count_cell row acc) b acc
  = (acc.1 + count_color BLACK b, acc.2 + count_color WHITE b).
Proof.
  revert acc. induction b as [|row b IH]; intros [a w]; simpl.
  - f_equal; lia.
  - rewrite IH, fold_count_cell. simpl. f_equal; lia.
Qed.

(** The tally loops count the cells of each colour. *)
Lemma count_tokens_eq b :
  count_tokens b = (count_color BLACK b, count_color WHITE b).
Proof. unfold count_tokens. by rewrite fold_count_rows. Qed.

Lemma occupied_eq b : occupied b = count_color BLACK b + count_color WHITE b.
Proof. unfold occupied. by rewrite count_tokens_eq. Qed.

Lemma count_row_insert c row i x v :
  row !! i = Some x →
  count_row c (<[i := v]> row) = count_row c row - holds c x + holds c v.
Proof.
  revert i. induction row as [|y row IH]; intros [|i] H; simpl in *; try done.
  - injection H as ->. lia.
  - rewrite (IH i H). lia.
Qed.

Lemma count_color_insert c b i row row' :
  b !! i = Some row →
  count_color c (<[i := row']> b)
  = count_color c b - count_row c row + count_row c row'.
Proof.
  revert i. induction b as [|y b IH]; intros [|i] H; simpl in *; try done.
  - injection H as ->. lia.
  - rewrite (IH i H). lia.
Qed.

Lemma count_row_bounds c row : 0 ≤ count_row c row ≤ Z.of_nat (length row).
Proof.
  induction row as [|x row IH]; simpl; [lia|].
  unfold holds. case_decide; lia.
Qed.

Lemma count_row_both row :
  count_row BLACK row + count_row WHITE row ≤ Z.of_nat (length row).
Proof.
  induction row as [|x row IH]; simpl; [lia|].
  unfold holds. destruct x as [[]|]; simpl; lia.
Qed.

Lemma occupied_bounds b : wf_board b → 0 ≤ occupied b ≤ 64.
Proof.
  intros [Hlen Hrows]. rewrite occupied_eq.
  assert (0 ≤ count_color BLACK b + count_color WHITE b
          ≤ 8 * Z.of_nat (length b)) as H; [|lia].
  clear Hlen. induction Hrows as [|row b Hrow _ IH]; simpl; [lia|].
  pose proof (count_row_both row). pose proof (count_row_bounds BLACK row).
  pose proof (count_row_bounds WHITE row). lia.
Qed.

(** The effect of a write on the count of a colour. *)
Lemma board_set_count b r c x v b' col :
  0 ≤ r → 0 ≤ c → board_get b r c = Ok x → board_set b r c v = Ok b' →
  count_color col b' = count_color col b - holds col x + holds col v.
Proof.
  intros Hr Hc Hget Hset.
  destruct (board_set_spec b r c x v Hr Hc Hget)
    as (b'' & Hset' & _ & _ & _ & row & Hrow & Hcell & ->).
  rewrite Hset in Hset'. injection Hset' as ->.
  rewrite (count_color_insert _ _ _ row) by done.
  rewrite (count_row_insert _ _ _ x) by done. lia.
Qed.

(** ** The loop of [flip_line] *)

Lemma ray_zero p d : ray p d 0 = p.
Proof. destruct p. unfold ray. simpl. f_equal; lia. Qed.

Lemma ray_neq_start r c dr dc (k : nat) :
  (dr, dc) ≠ (0, 0) → ray (r, c) (dr, dc) (S k) ≠ (r, c).
Proof.
  intros Hd. unfold ray. simpl. intros [= H1 H2].
  apply Hd. f_equal; nia.
Qed.

Lemma ray_trace_shift r c dr dc j n :
  map (ray (r + dr, c + dc) (dr, dc)) (seq j n)
  = map (ray (r, c) (dr, dc)) (seq (S j) n).
Proof.
  revert j. induction n as [|n IH]; intros j; simpl; [done|].
  by rewrite ray_step, IH.
Qed.

Lemma flip_line_loop_spec color dr dc n :
  ∀ budget b r c seen,
    (n ≤ budget)%nat →
    (∀ k : nat, (k < n)%nat → cell_is b (ray (r, c) (dr, dc) k) (Some (opponent color))) →
    cell_is b (ray (r, c) (dr, dc) n) (Some color) →
    ∃ b',
      flip_line_loop budget b r c color dr dc seen
        = Ok (b', seen ++ map (ray (r, c) (dr, dc)) (seq 0 (S n)))
      ∧ (∀ k : nat, (k < n)%nat →
           let p := ray (r, c) (dr, dc) k in board_get b' p.1 p.2 = Ok (Some color))
      ∧ (∀ p : Z * Z, in_bounds p.1 p.2 = true →
           (∀ k : nat, (k < n)%nat → p ≠ ray (r, c) (dr, dc) k) →
           board_get b' p.1 p.2 = board_get b p.1 p.2)
      ∧ (wf_board b → wf_board b')
      ∧ count_color color b' = count_color color b + Z.of_nat n
      ∧ count_color (opponent color) b' = count_color (opponent color) b - Z.of_nat n.
Proof.
  induction n as [|n IH]; intros budget b r c seen Hbud Hrun Hend.
  - destruct Hend as [_ Hget]. rewrite ray_zero in Hget. simpl in Hget.
    exists b. split; [|split; [|split; [|split; [|split]]]]; try done; try lia.
    destruct budget; simpl; rewrite Hget; simpl; rewrite decide_True by done;
      by rewrite ray_zero.
  - destruct (Hrun 0%nat) as [Hin0 Hget0]; [lia|].
    rewrite ray_zero in Hin0, Hget0. simpl in Hin0, Hget0.
    pose proof (opponent_neq color) as Hopp.
    assert ((dr, dc) ≠ (0, 0)) as Hd.
    { intros [= -> ->]. destruct Hend as [_ Hget]. unfold ray in Hget. simpl in Hget.
      rewrite !Z.mul_0_r, !Z.add_0_r in Hget. congruence. }
    apply in_bounds_true in Hin0 as Hrc.
    destruct (board_set_spec b r c _ (Some color) ltac:(lia) ltac:(lia) Hget0)
      as (b1 & Hset & Hnew & Hother & Hwf1 & _).
    assert (∀ k : nat, let p := ray (r + dr, c + dc) (dr, dc) k in
              in_bounds p.1 p.2 = true → board_get b1 p.1 p.2 = board_get b p.1 p.2) as Hkeep.
    { intros k p Hp. apply in_bounds_true in Hp as Hp'.
      apply Hother; [lia..|]. subst p. rewrite <- surjective_pairing, ray_step.
      by apply ray_neq_start. }
    destruct (IH (pred budget) b1 (r + dr) (c + dc) (seen ++ [(r, c)])) as
      (b' & Hloop & Hflip & Hrest & Hwf' & Hc1 & Hc2).
    { lia. }
    { intros k Hk. destruct (Hrun (S k)) as [Hin Hget]; [lia|].
      rewrite <- ray_step in Hin, Hget. split; [done|]. by rewrite Hkeep. }
    { destruct Hend as [Hin Hget]. rewrite <- ray_step in Hin, Hget.
      split; [done|]. by rewrite Hkeep. }
    exists b'. split; [|split; [|split; [|split; [|split]]]].
    + destruct budget as [|budget]; [lia|]. simpl in Hloop |- *.
      rewrite Hget0. simpl. rewrite decide_False by congruence.
      rewrite Hset. simpl. rewrite Hloop. f_equal. f_equal.
      rewrite <- app_assoc. f_equal. simpl.
      by rewrite !ray_zero, ray_one, ray_trace_shift.
    + intros [|k] Hk p; subst p.
      * rewrite ray_zero. rewrite (Hrest (r, c)); [done | by apply in_bounds_true |].
        intros k' _. rewrite ray_step. intros E. symmetry in E. by apply ray_neq_start in E.
      * rewrite <- ray_step. apply Hflip. lia.
    + intros p Hp Hne. rewrite Hrest.
      * apply in_bounds_true in Hp as Hp'. apply Hother; [lia..|].
        rewrite <- surjective_pairing. specialize (Hne 0%nat). rewrite ray_zero in Hne.
        apply Hne. lia.
      * done.
      * intros k Hk. rewrite ray_step. apply Hne. lia.
    + auto.
    + rewrite Hc1. rewrite (board_set_count b r c _ (Some color) b1 color) by (done || lia).
      unfold holds. rewrite decide_False by congruence. rewrite decide_True by done. lia.
    + rewrite Hc2. rewrite (board_set_count b r c _ (Some color) b1 (opponent color)) by (done || lia).
      unfold holds. rewrite decide_True by done. rewrite decide_False by congruence. lia.
Qed.

(** [flip_line] on a bookended run of [n] opponent cells: the body runs [n]
    times, the cells read are cells [1 .. n + 1] of the ray, the run is
    turned over and nothing else changes. *)
Lemma flip_line_budget_spec b move color d n budget :
  (n ≤ budget)%nat →
  bookended b move color d n →
  ∃ b',
    flip_line_budget budget b move color d
      = Ok (b', map (ray move d) (seq 1 (S n)))
    ∧ (∀ k : nat, (1 ≤ k ≤ n)%nat →
         let p := ray move d k in board_get b' p.1 p.2 = Ok (Some color))
    ∧ (∀ p : Z * Z, in_bounds p.1 p.2 = true →
         (∀ k : nat, (1 ≤ k ≤ n)%nat → p ≠ ray move d k) →
         board_get b' p.1 p.2 = board_get b p.1 p.2)
    ∧ (wf_board b → wf_board b')
    ∧ count_color color b' = count_color color b + Z.of_nat n
    ∧ count_color (opponent color) b' = count_color (opponent color) b - Z.of_nat n.
Proof.
  intros Hbud [Hrun Hend]. destruct move as [r c], d as [dr dc].
  destruct (flip_line_loop_spec color dr dc n budget b (r + dr) (c + dc) []) as
    (b' & Hloop & Hflip & Hrest & Hwf & Hc1 & Hc2).
  - done.
  - intros k Hk. rewrite ray_step. apply Hrun. lia.
  - rewrite ray_step. by replace (S n) with (n + 1)%nat by lia.
  - exists b'. split; [|split; [|split; [|done]]].
    + unfold flip_line_budget. rewrite Hloop. by rewrite ray_trace_shift.
    + intros [|k] Hk; [lia|]. rewrite <- ray_step. apply Hflip. lia.
    + intros p Hp Hne. apply Hrest; [done|].
      intros k Hk. rewrite ray_step. apply Hne. lia.
Qed.

(** ** [do_flip] *)

Lemma directions_NoDup : NoDup directions.
Proof. compute_done. Qed.

Lemma direction_nonzero d : d ∈ directions → d ≠ (0, 0).
Proof.
  intros Hd. pose proof directions_nonzero as H.
  rewrite Forall_forall in H. by apply H.
Qed.

(** Two different directions share no cell beyond the start. *)
Lemma rays_disjoint move d d' (k k' : nat) :
  d ∈ directions → d' ∈ directions → d ≠ d' →
  (1 ≤ k)%nat → (1 ≤ k')%nat →
  ray move d k ≠ ray move d' k'.
Proof.
  destruct move as [r c]. unfold directions, ray.
  rewrite !elem_of_cons, !elem_of_nil.
  intros Hd Hd' Hne Hk Hk'.
  repeat (destruct Hd as [->|Hd]); try done;
    repeat (destruct Hd' as [->|Hd']); try done;
    simpl; intros [= H1 H2]; lia.
Qed.

Lemma bookended_agree b1 b2 move color ds d n :
  agree_on_rays b1 b2 move ds → d ∈ ds →
  bookended b1 move color d n → bookended b2 move color d n.
Proof.
  intros Hag Hd [Hrun [Hin Hend]]. split.
  - intros k Hk. destruct (Hrun k Hk) as [Hin' Hget]. split; [done|].
    rewrite <- Hget. symmetry. apply Hag; [done | lia | done].
  - split; [done|]. rewrite <- Hend. symmetry. apply Hag; [done | lia | done].
Qed.

Lemma agree_on_rays_sym b1 b2 move ds :
  agree_on_rays b1 b2 move ds → agree_on_rays b2 b1 move ds.
Proof. intros H d k Hd Hk p Hp. symmetry. by apply H. Qed.

Lemma occupied_color b color :
  occupied b = count_color color b + count_color (opponent color) b.
Proof. rewrite occupied_eq. destruct color; unfold opponent; simpl; lia. Qed.

Lemma while_budget_ge : (7 ≤ while_budget)%nat.
Proof. unfold while_budget. lia. Qed.

Lemma for_each_cons {A S} (body : S → A → result S) s x l :
  for_each body s (x :: l) = s' ← body s x; for_each body s' l.
Proof. done. Qed.

Lemma do_flip_direction_eq color move b d (f : bool) :
  is_flippable_line b move color d = Ok f →
  do_flip_direction color move b d
  = if f then r ← flip_line b move color d; Ok r.1 else Ok b.
Proof. intros H. unfold do_flip_direction. by rewrite H. Qed.

(** The invariant of the [for direction in directions] loop of [do_flip]:
    [b] is the board before the move, [bc] the board when the loop starts
    on the remaining directions [ds]. *)
Lemma do_flip_loop_spec b color move :
  in_bounds move.1 move.2 = true →
  ∀ ds bc,
    NoDup ds → ds ⊆ directions → wf_board bc → agree_on_rays bc b move ds →
    ∃ b',
      for_each (do_flip_direction color move) bc ds = Ok b'
      ∧ wf_board b'
      ∧ (∀ p : Z * Z, in_bounds p.1 p.2 = true →
           (flipped_along b move color ds p ∧ board_get b' p.1 p.2 = Ok (Some color))
           ∨ (¬ flipped_along b move color ds p
              ∧ board_get b' p.1 p.2 = board_get bc p.1 p.2))
      ∧ occupied b' = occupied bc.
Proof.
  intros Hin. induction ds as [|d ds IH]; intros bc Hnd Hsub Hwf Hag.
  - exists bc. split; [done|]. split; [done|]. split; [|done].
    intros p _. right. split; [|done].
    intros (d & n & k & Hd & _). by apply elem_of_nil in Hd.
  - apply NoDup_cons in Hnd as [Hnotin Hnd].
    assert (d ∈ directions) as Hd by (apply Hsub; left).
    assert (ds ⊆ directions) as Hsub' by (intros x Hx; apply Hsub; by right).
    destruct (is_flippable_line_total bc move color d Hwf Hin (direction_nonzero d Hd))
      as [f Hf].
    rewrite for_each_cons, (do_flip_direction_eq _ _ _ _ _ Hf). destruct f.
    + apply is_flippable_line_true in Hf as (n & Hn & Hbk).
      pose proof (bookended_short _ _ _ _ _ Hn Hbk) as Hn7.
      pose proof while_budget_ge as Hwb.
      destruct (flip_line_budget_spec bc move color d n while_budget ltac:(lia) Hbk)
        as (b1 & Hfl & Hflip & Hrest & Hwf1 & Hc1 & Hc2).
      unfold flip_line. rewrite Hfl. cbn [mbind result_bind fst].
      assert (bookended b move color d n) as Hbk'.
      { eapply bookended_agree; [exact Hag | left | done]. }
      destruct (IH b1 Hnd Hsub' (Hwf1 Hwf)) as (b' & Hloop & Hwf' & Hcells & Hocc).
      { intros d' k Hd' Hk p Hp. subst p. rewrite Hrest; [|done|].
        - apply Hag; [by right | done | done].
        - intros k' Hk'. apply rays_disjoint; [by apply Hsub' | done | | lia..].
          intros ->. done. }
      exists b'. split; [done|]. split; [done|]. split.
      * intros p Hp.
        destruct (decide (p ∈ map (ray move d) (seq 1 n))) as [Hel|Hnel].
        -- apply list_elem_of_fmap in Hel as (k & -> & Hk%elem_of_seq).
           left. split.
           ++ exists d, n, k. split; [left|]. split; [done|]. split; [done|].
              split; [lia | done].
           ++ destruct (Hcells _ Hp) as [[_ ?]|[_ ->]]; [done|]. apply Hflip. lia.
        -- destruct (Hcells _ Hp) as [[(d' & n' & k' & Hd' & Hrest') Hget]|[Hno Hget]].
           ++ left. split; [|done]. exists d', n', k'. split; [by right | done].
           ++ right. split.
              ** intros (d' & n' & k' & [->|Hd']%elem_of_cons & Hn' & Hbk'' & Hk' & ->).
                 { apply Hnel. apply list_elem_of_fmap. exists k'. split; [done|].
                   apply elem_of_seq.
                   assert (k' ≤ n)%nat; [|lia].
                   destruct Hbk'' as [Hrun'' _].
                   apply (bookended_run_le b move color d n k' Hbk'); [lia | | ].
                   - apply Hrun''. lia.
                   - intros j Hj. apply Hrun''. lia. }
                 { apply Hno. exists d', n', k'. done. }
              ** rewrite Hget. apply Hrest; [done|].
                 intros k Hk ->. apply Hnel. apply list_elem_of_fmap.
                 exists k. split; [done|]. apply elem_of_seq. lia.
      * rewrite Hocc. rewrite !(occupied_color _ color). lia.
    + assert (¬ flippable_line b move color d) as Hnf.
      { intros (n & Hn & Hbk).
        assert (is_flippable_line bc move color d = Ok true); [|congruence].
        apply is_flippable_line_true. exists n. split; [done|].
        eapply bookended_agree; [apply agree_on_rays_sym; exact Hag | left | done]. }
      cbn [mbind result_bind].
      destruct (IH bc Hnd Hsub' Hwf) as (b' & Hloop & Hwf' & Hcells & Hocc).
      { intros d' k Hd' Hk. apply Hag; [by right | done]. }
      exists b'. split; [done|]. split; [done|]. split; [|done].
      intros p Hp.
      destruct (Hcells _ Hp) as [[(d' & n' & k' & Hd' & Hrest') Hget]|[Hno Hget]].
      * left. split; [|done]. exists d', n', k'. split; [by right | done].
      * right. split; [|done].
        intros (d' & n' & k' & [->|Hd']%elem_of_cons & Hn' & Hbk'' & Hk' & ->).
        -- apply Hnf. by exists n'.
        -- apply Hno. exists d', n', k'. done.
Qed.

Lemma directions_ray_neq move d (k : nat) :
  d ∈ directions → (1 ≤ k)%nat → ray move d k ≠ move.
Proof.
  intros Hd Hk. destruct move as [r c], d as [dr dc], k as [|k]; [lia|].
  apply ray_neq_start. by apply direction_nonzero.
Qed.

(** The placement followed by [do_flip], on an empty cell of the board. *)
Lemma apply_move_spec b color move :
  wf_board b → in_bounds move.1 move.2 = true →
  board_get b move.1 move.2 = Ok None →
  ∃ b',
    apply_move b color move = Ok b'
    ∧ wf_board b'
    ∧ board_get b' move.1 move.2 = Ok (Some color)
    ∧ (∀ p : Z * Z, flipped_by b move color p →
         board_get b' p.1 p.2 = Ok (Some color))
    ∧ (∀ p : Z * Z, in_bounds p.1 p.2 = true → p ≠ move →
         ¬ flipped_by b move color p →
         board_get b' p.1 p.2 = board_get b p.1 p.2)
    ∧ occupied b' = occupied b + 1.
Proof.
  intros Hwf Hin Hget. apply in_bounds_true in Hin as Hrc.
  destruct (board_set_spec b move.1 move.2 None (Some color) ltac:(lia) ltac:(lia) Hget)
    as (b0 & Hset & Hnew & Hother & Hwf0 & _).
  destruct (do_flip_loop_spec b color move Hin directions b0 directions_NoDup
              ltac:(done) (Hwf0 Hwf)) as (b' & Hloop & Hwf' & Hcells & Hocc).
  { intros d k Hd Hk p Hp. apply in_bounds_true in Hp as Hp'.
    apply Hother; [lia..|]. subst p. rewrite <- !surjective_pairing.
    by apply directions_ray_neq. }
  exists b'. split; [|split; [done|split; [|split; [|split]]]].
  - unfold apply_move. rewrite Hset. done.
  - destruct (Hcells move Hin) as [[_ ?]|[_ ->]]; done.
  - intros p Hfl. assert (in_bounds p.1 p.2 = true) as Hp.
    { destruct Hfl as (d & n & k & _ & _ & [Hrun _] & Hk & ->). by apply Hrun. }
    destruct (Hcells p Hp) as [[_ ?]|[? _]]; done.
  - intros p Hp Hne Hnf. destruct (Hcells p Hp) as [[? _]|[_ ->]]; [done|].
    apply in_bounds_true in Hp as Hp'. apply Hother; [lia..|].
    by rewrite <- !surjective_pairing.
  - rewrite Hocc, !occupied_eq.
    rewrite (board_set_count b move.1 move.2 None (Some color) b0 BLACK) by (done || lia).
    rewrite (board_set_count b move.1 move.2 None (Some color) b0 WHITE) by (done || lia).
    unfold holds. destruct color; simpl; lia.
Qed.

(** ** [no_valid_moves] *)

Lemma no_valid_moves_loop_spec b color coords :
  wf_board b →
  ∃ v, no_valid_moves_loop b color coords = Ok v
     ∧ (v = true ↔ ∀ move, move ∈ coords → valid_move b color move = Ok false).
Proof.
  intros Hwf. induction coords as [|mv coords IH]; simpl.
  - exists true. split; [done|]. split; [|done]. intros _ mv Hel.
    by apply elem_of_nil in Hel.
  - destruct (valid_move_spec b color mv Hwf) as (v & Hv & _). rewrite Hv. simpl.
    destruct v.
    + exists false. split; [done|]. split; [done|]. intros H.
      specialize (H mv ltac:(left)). congruence.
    + destruct IH as (w & -> & Hw). exists w. split; [done|]. rewrite Hw. split.
      * intros H mv' [->|Hel]%elem_of_cons; [done | by apply H].
      * intros H mv' Hel. apply H. by right.
Qed.

Lemma no_valid_moves_spec b color :
  wf_board b →
  ∃ v, no_valid_moves b color = Ok v
     ∧ (v = true ↔
          ∀ move, move ∈ all_coordinates → valid_move b color move = Ok false).
Proof. apply no_valid_moves_loop_spec. Qed.

(** ** One pass through the loop of [play_game] *)

Lemma handle_inv e out s out' ctl :
  handle e out s = (out', ctl) →
  match ctl with
  | Continue ev s' => ev = ParseFailed ∧ s' = s ∧ ∃ msg, e = CoordinateParseError msg
  | Leave GameOver => False
  | Leave _ => True
  end.
Proof. destruct e; simpl; intros [= <- <-]; eauto. Qed.

Lemma loop_body_inv s out ctl :
  wf_board (board s) → loop_body s = (out, ctl) → pass_spec s out ctl.
Proof.
  intros Hwf. unfold loop_body.
  destruct (no_valid_moves_spec (board s) (turn s) Hwf) as (v & Hnv & _).
  rewrite Hnv. destruct v.
  - destruct (Z.leb_spec 2 (skip s + 1)) as [Hsk|Hsk]; intros [= <- <-]; simpl.
    + split; [done|]. split; [lia | done].
    + split; [done|]. split; [lia | done].
  - destruct (next (input s)) as [line input'] eqn:Hnext. simpl.
    destruct line as [str|e|].
    + destruct (parse_coordinate (rstrip str)) as [move|e|] eqn:Hparse.
      * unfold escape.
        destruct (valid_move (board s) (turn s) move) as [v|e|] eqn:Hvalid;
          [|by intros [= <- <-]..].
        destruct v; simpl.
        -- destruct (apply_move (board s) (turn s) move) as [board'|e|] eqn:Happly;
             intros [= <- <-]; simpl; [|done..].
           rewrite Hnext. split; [done|]. exists str, move, board'. done.
        -- intros [= <- <-]. simpl. rewrite Hnext. split; [done|]. split; [done|].
           exists str, move. done.
      * intros H. apply handle_inv in H. destruct ctl as [ev s'|en].
        -- destruct H as (-> & -> & msg & ->). simpl. rewrite Hnext.
           split; [done|]. split; [done|]. exists msg. right. eauto.
        -- by destruct en.
      * by intros [= <- <-].
    + intros H. apply handle_inv in H. destruct ctl as [ev s'|en].
      * destruct H as (-> & -> & msg & ->). simpl. rewrite Hnext.
        split; [done|]. split; [done|]. exists msg. by left.
      * by destruct en.
    + by intros [= <- <-].
Qed.

(** ** The game loop: invariants of the reachable states *)

Lemma new_board_value : new_board = Ok initial_board.
Proof. reflexivity. Qed.

Lemma initial_board_wf : wf_board initial_board.
Proof. split; [reflexivity | repeat constructor]. Qed.

Lemma moves_applied_cons ev evs :
  moves_applied (ev :: evs)
  = (if decide (ev = Applied) then 1 else 0) + moves_applied evs.
Proof.
  unfold moves_applied. rewrite filter_cons.
  case_decide; simpl length; lia.
Qed.

(** At the head of the loop the board is well formed, it holds four discs
    more than moves were applied, and the skip counter is 1 right after a
    skipped turn and 0 otherwise. *)
Lemma reachable_invariant inp evs s :
  reachable inp evs s →
  wf_board (board s)
  ∧ occupied (board s) = 4 + moves_applied evs
  ∧ skip s = (if decide (head evs = Some Skipped) then 1 else 0).
Proof.
  induction 1 as [s Hinit | evs s out ev s' Hreach (Hwf & Hocc & Hskip) Hbody].
  - unfold initial_state in Hinit. rewrite new_board_value in Hinit.
    injection Hinit as <-. simpl. split; [apply initial_board_wf|]. done.
  - apply loop_body_inv in Hbody; [|done]. rewrite moves_applied_cons.
    destruct ev; simpl in Hbody.
    + destruct Hbody as (_ & Hlt & ->). simpl.
      split; [done|]. split; [lia|]. case_decide; lia.
    + destruct Hbody as (_ & -> & _). simpl. split; [done|]. split; [lia | done].
    + destruct Hbody as (_ & -> & _). simpl. split; [done|]. split; [lia | done].
    + destruct Hbody as (_ & str & move & b' & _ & _ & Hvalid & Happly & ->). simpl.
      destruct (valid_move_spec (board s) (turn s) move Hwf) as (v & Hv & Hiff).
      rewrite Hvalid in Hv. injection Hv as <-.
      destruct (proj1 Hiff eq_refl) as (Hin & Hget & _).
      destruct (apply_move_spec (board s) (turn s) move Hwf Hin Hget)
        as (b'' & Happly' & Hwf' & _ & _ & _ & Hocc').
      rewrite Happly in Happly'. injection Happly' as <-.
      split; [done|]. split; [lia | done].
Qed.

(** * The claims *)

(** ** C1: the legal moves of Black in the opening position *)

Lemma valid_move_out_of_bounds b color move :
  in_bounds move.1 move.2 = false → valid_move b color move = Ok false.
Proof. intros H. unfold valid_move. by rewrite H. Qed.

Lemma all_coordinates_elem r c :
  in_bounds r c = true → (r, c) ∈ all_coordinates.
Proof.
  intros [Hr Hc]%in_bounds_true. unfold all_coordinates, SIZE.
  apply list_elem_of_bind. exists r. split; [|apply elem_of_seqZ; lia].
  apply list_elem_of_bind. exists c. split; [by apply list_elem_of_singleton|].
  apply elem_of_seqZ. lia.
Qed.

Lemma result_is_true r v : result_is r v = true → r = Ok v.
Proof.
  destruct r as [x| |]; simpl; [|done..].
  intros H. apply Bool.eqb_prop in H. by subst.
Qed.

(** [valid_move] on the 64 cells of the opening position. *)
Lemma initial_moves_table :
  forallb (λ move, result_is (valid_move initial_board BLACK move)
                     (bool_decide (move ∈ [(2, 4); (3, 5); (4, 2); (5, 3)])))
          all_coordinates = true.
Proof. vm_compute. reflexivity. Qed.

(** C1, as amended: on the board that [play_game] sets up (Black at
    (3,3) and (4,4), White at (3,4) and (4,3)), [valid_move(board, BLACK,
    coord)] is true exactly for e3, f4, c5 and d6, that is for the
    coordinates (2,4), (3,5), (4,2) and (5,3). *)
Theorem C1_initial_black_moves :
  new_board = Ok initial_board
  ∧ map parse_coordinate ["e3"; "f4"; "c5"; "d6"]
    = map Ok [(2, 4); (3, 5); (4, 2); (5, 3)]
  ∧ ∀ move : Z * Z,
      valid_move initial_board BLACK move = Ok true
      ↔ move ∈ [(2, 4); (3, 5); (4, 2); (5, 3)].
Proof.
  split; [reflexivity|]. split; [reflexivity|].
  intros [r c]. destruct (in_bounds r c) eqn:Hin.
  - pose proof initial_moves_table as H. rewrite forallb_forall in H.
    rewrite (result_is_true _ _ (H (r, c)
               (proj1 (list_elem_of_In _ _) (all_coordinates_elem r c Hin)))).
    split.
    + intros [= Hb]. by apply bool_decide_eq_true in Hb.
    + intros Hel. f_equal. by apply bool_decide_eq_true.
  - rewrite valid_move_out_of_bounds by done. split; [done|].
    apply in_bounds_false in Hin.
    rewrite !elem_of_cons, elem_of_nil.
    intros [[= -> ->]|[[= -> ->]|[[= -> ->]|[[= -> ->]|[]]]]]; lia.
Qed.

(** C1, as stated, fails: d3, that is (2,3), is not a legal move of Black
    in the opening position, so the legal moves are not d3, c4, f5, e6. *)
Lemma C1_initial_black_moves_counterexample :
  ¬ (∃ b0, new_board = Ok b0
       ∧ map parse_coordinate ["d3"; "c4"; "f5"; "e6"]
         = map Ok [(2, 3); (3, 2); (4, 5); (5, 4)]
       ∧ ∀ move : Z * Z,
           valid_move b0 BLACK move = Ok true
           ↔ move ∈ [(2, 3); (3, 2); (4, 5); (5, 4)]).
Proof.
  intros (b0 & Hb0 & _ & H). rewrite new_board_value in Hb0. injection Hb0 as <-.
  destruct (H (2, 3)) as [_ H2]. specialize (H2 ltac:(left)).
  vm_compute in H2. discriminate.
Qed.

(** ** C2: [valid_move] decides the rule of the game *)

(** C2: on a board of 8 rows of 8 cells, [valid_move(board, color, coord)]
    returns a boolean, and it is [True] if and only if (a) coord lies in
    [0,7]x[0,7], (b) the cell at coord is empty and (c) one of the 8
    directions holds, outward from coord, one or more opponent cells
    immediately followed by a cell of the mover, all on the board.  A
    direction whose first cell already is the mover's does not count. *)
Theorem C2_valid_move_iff b color move :
  wf_board b →
  (∃ v, valid_move b color move = Ok v)
  ∧ (valid_move b color move = Ok true
     ↔ (0 ≤ move.1 ≤ 7 ∧ 0 ≤ move.2 ≤ 7)
       ∧ board_get b move.1 move.2 = Ok None
       ∧ ∃ d, d ∈ directions ∧ flippable_line b move color d)
  ∧ (∀ d, cell_is b (ray move d 1) (Some color) → ¬ flippable_line b move color d).
Proof.
  intros Hwf. destruct (valid_move_spec b color move Hwf) as (v & Hv & Hiff).
  split; [eauto|]. split.
  - rewrite Hv. split.
    + intros [= ->]. destruct (proj1 Hiff eq_refl) as (Hin & Hget & Hd).
      apply in_bounds_true in Hin. split; [lia | done].
    + intros (Hin & Hget & Hd). f_equal. apply Hiff.
      split; [apply in_bounds_true; lia | done].
  - intros d [_ Hget] (n & Hn & Hrun & _).
    destruct (Hrun 1%nat) as [_ Hget']; [lia|]. rewrite Hget in Hget'.
    pose proof (opponent_neq color). congruence.
Qed.

Lemma C2_valid_move_iff_witness :
  wf_board initial_board
  ∧ (valid_move initial_board BLACK (2, 4) = Ok true
     ↔ (0 ≤ 2 ≤ 7 ∧ 0 ≤ 4 ≤ 7)
       ∧ board_get initial_board 2 4 = Ok None
       ∧ ∃ d, d ∈ directions ∧ flippable_line initial_board (2, 4) BLACK d).
Proof.
  split; [split; [reflexivity | repeat constructor]|].
  apply (C2_valid_move_iff initial_board BLACK (2, 4)).
  split; [reflexivity | repeat constructor].
Defined.

(** ** C10: the adjacency pre-check is redundant *)

(** C10: on a board of 8 rows of 8 cells, [valid_move] returns the same
    value as the same function without its [find_adjacent] test: whenever
    some direction forms a flippable line, [find_adjacent] returns [True].
    This holds although [find_adjacent] reads negative indices, which wrap
    around to the opposite edge: at (0,0) it reads [board[-1][0]], the cell
    (7,0), and answers [True] on [wrap_board]. *)
Theorem C10_find_adjacent_redundant b color move :
  wf_board b →
  valid_move b color move = valid_move_without_find_adjacent b color move
  ∧ (∀ d, d ∈ directions → is_flippable_line b move color d = Ok true →
       find_adjacent b move color = Ok true)
  ∧ (board_get wrap_board (-1) 0 = Ok (Some WHITE)
     ∧ find_adjacent wrap_board (0, 0) BLACK = Ok true
     ∧ valid_move wrap_board BLACK (0, 0) = Ok false).
Proof.
  intros Hwf. split; [by apply valid_move_without_find_adjacent_eq|]. split.
  - intros d Hd Hfl. apply (flippable_find_adjacent b move color d Hd).
    by apply is_flippable_line_true.
  - split; [reflexivity|]. split; vm_compute; reflexivity.
Qed.

Lemma C10_find_adjacent_redundant_witness :
  wf_board wrap_board
  ∧ valid_move wrap_board WHITE (3, 3)
    = valid_move_without_find_adjacent wrap_board WHITE (3, 3).
Proof.
  split; [split; [reflexivity | repeat constructor]|].
  apply (C10_find_adjacent_redundant wrap_board WHITE (3, 3)).
  split; [reflexivity | repeat constructor].
Defined.

(** ** C9: the unguarded loop of [flip_line] under the guard of [do_flip] *)

(** A larger budget does not change the result of the loop. *)
Lemma flip_line_loop_mono color dr dc budget :
  ∀ budget' b r c seen x,
    (budget ≤ budget')%nat →
    flip_line_loop budget b r c color dr dc seen = Ok x →
    flip_line_loop budget' b r c color dr dc seen = Ok x.
Proof.
  induction budget as [|budget IH]; intros budget' b r c seen x Hle H.
  - destruct budget'; simpl in *;
      (destruct (board_get b r c) as [cell|e|]; simpl in *; [|done..]);
      case_decide; done.
  - destruct budget' as [|budget']; [lia|]. simpl in *.
    destruct (board_get b r c) as [cell|e|]; simpl in *; [|done..].
    case_decide; [done|].
    destruct (board_set b r c (Some color)) as [b1|e|]; simpl in *; [|done..].
    apply IH; [lia | done].
Qed.

(** C9: whenever [is_flippable_line(board, move, color, direction)] returns
    [True], the [while] loop of [flip_line] ends after [n] passes, with
    [1 <= n <= 7]; the index pairs at which it evaluates [board[row][col]]
    are the cells 1 to [n + 1] outward from [move], all with row and column
    in [0,7] (no [IndexError], no negative index); the cells 1 to [n] do
    not hold the mover's colour and cell [n + 1], where the loop stops,
    does. *)
Theorem C9_flip_line_guarded b move color d :
  is_flippable_line b move color d = Ok true →
  ∃ (n : nat) b',
    (1 ≤ n ≤ 7)%nat
    ∧ (∀ budget, (n ≤ budget)%nat →
         flip_line_budget budget b move color d
         = Ok (b', map (ray move d) (seq 1 (S n))))
    ∧ flip_line b move color d = Ok (b', map (ray move d) (seq 1 (S n)))
    ∧ Forall (λ p : Z * Z, 0 ≤ p.1 ≤ 7 ∧ 0 ≤ p.2 ≤ 7)
             (map (ray move d) (seq 1 (S n)))
    ∧ (∀ k : nat, (1 ≤ k ≤ n)%nat →
         let p := ray move d k in
         board_get b p.1 p.2 = Ok (Some (opponent color))
         ∧ board_get b p.1 p.2 ≠ Ok (Some color))
    ∧ (let p := ray move d (S n) in board_get b p.1 p.2 = Ok (Some color)).
Proof.
  intros Hfl. apply is_flippable_line_true in Hfl as (n & Hn & Hbk).
  pose proof (bookended_short _ _ _ _ _ Hn Hbk) as Hn7.
  destruct (flip_line_budget_spec b move color d n n ltac:(lia) Hbk)
    as (b' & Hrun & _).
  assert (∀ budget, (n ≤ budget)%nat →
            flip_line_budget budget b move color d
            = Ok (b', map (ray move d) (seq 1 (S n)))) as Hall.
  { intros budget Hle. destruct move as [r c], d as [dr dc].
    unfold flip_line_budget in *.
    by apply (flip_line_loop_mono color dr dc n budget). }
  exists n, b'. split; [lia|]. split; [done|]. split.
  { apply Hall. pose proof while_budget_ge. lia. }
  destruct Hbk as [Hopp Hend]. split; [|split].
  - apply Forall_forall. intros p Hp.
    apply list_elem_of_fmap in Hp as (k & -> & Hk%elem_of_seq).
    assert (in_bounds (ray move d k).1 (ray move d k).2 = true) as Hin.
    { destruct (decide (k ≤ n)%nat).
      - apply Hopp. lia.
      - replace k with (n + 1)%nat by lia. apply Hend. }
    apply in_bounds_true in Hin. lia.
  - intros k Hk p. destruct (Hopp k Hk) as [_ Hget]. subst p. split; [done|].
    rewrite Hget. pose proof (opponent_neq color). congruence.
  - replace (S n) with (n + 1)%nat by lia. apply Hend.
Qed.

Lemma C9_flip_line_guarded_witness :
  is_flippable_line initial_board (2, 4) BLACK (1, 0) = Ok true
  ∧ ∃ (n : nat) b',
      (1 ≤ n ≤ 7)%nat
      ∧ flip_line initial_board (2, 4) BLACK (1, 0)
        = Ok (b', map (ray (2, 4) (1, 0)) (seq 1 (S n))).
Proof.
  split; [vm_compute; reflexivity|].
  destruct (C9_flip_line_guarded initial_board (2, 4) BLACK (1, 0))
    as (n & b' & Hn & _ & Hfl & _); [vm_compute; reflexivity|].
  exists n, b'. split; [exact Hn | exact Hfl].
Defined.

(** ** C3: the effect of a move *)

(** C3: on a board of 8 rows of 8 cells and for a move that [valid_move]
    accepts, the placement followed by [do_flip] returns a board on which
    the cell at coord holds [color]; every opponent cell of every flippable
    line among the 8 directions, up to but without the bookend, holds
    [color]; and every other cell of the board is unchanged. *)
Theorem C3_apply_move b color move :
  wf_board b →
  valid_move b color move = Ok true →
  ∃ b',
    apply_move b color move = Ok b'
    ∧ wf_board b'
    ∧ board_get b' move.1 move.2 = Ok (Some color)
    ∧ (∀ p : Z * Z, flipped_by b move color p →
         board_get b p.1 p.2 = Ok (Some (opponent color))
         ∧ board_get b' p.1 p.2 = Ok (Some color))
    ∧ (∀ p : Z * Z, in_bounds p.1 p.2 = true → p ≠ move →
         ¬ flipped_by b move color p →
         board_get b' p.1 p.2 = board_get b p.1 p.2).
Proof.
  intros Hwf Hvalid.
  destruct (valid_move_spec b color move Hwf) as (v & Hv & Hiff).
  rewrite Hvalid in Hv. injection Hv as <-.
  destruct (proj1 Hiff eq_refl) as (Hin & Hget & _).
  destruct (apply_move_spec b color move Hwf Hin Hget)
    as (b' & Happly & Hwf' & Hnew & Hflip & Hrest & _).
  exists b'. split; [done|]. split; [done|]. split; [done|]. split; [|done].
  intros p Hp. split; [|by apply Hflip].
  destruct Hp as (d & n & k & _ & _ & [Hrun _] & Hk & ->). by apply Hrun.
Qed.

Lemma C3_apply_move_witness :
  wf_board initial_board
  ∧ valid_move initial_board BLACK (2, 4) = Ok true
  ∧ ∃ b', apply_move initial_board BLACK (2, 4) = Ok b'
      ∧ board_get b' 2 4 = Ok (Some BLACK).
Proof.
  split; [split; [reflexivity | repeat constructor]|].
  split; [vm_compute; reflexivity|].
  destruct (C3_apply_move initial_board BLACK (2, 4))
    as (b' & Happly & _ & Hnew & _);
    [split; [reflexivity | repeat constructor] | vm_compute; reflexivity |].
  exists b'. split; [exact Happly | exact Hnew].
Defined.

(** ** C7: [parse_coordinate] *)

Lemma ord_bounds c : 0 ≤ ord c < 256.
Proof. unfold ord. pose proof (N_ascii_bounded c). lia. Qed.

Lemma ord_lower_char c :
  ord (lower_char c)
  = if ((65 <=? ord c) && (ord c <=? 90))
       || ((192 <=? ord c) && (ord c <=? 222) && negb (ord c =? 215))
    then ord c + 32 else ord c.
Proof.
  unfold lower_char. pose proof (ord_bounds c) as Hb.
  destruct (((65 <=? ord c) && (ord c <=? 90))
            || ((192 <=? ord c) && (ord c <=? 222) && negb (ord c =? 215))) eqn:E;
    [|done].
  unfold ord at 1. rewrite N_ascii_embedding; [lia|].
  apply orb_true_iff in E. rewrite !andb_true_iff in E. lia.
Qed.

Lemma parse_coordinate_two c d :
  parse_coordinate (String c (String d EmptyString))
  = if negb ((0 <=? ord (lower_char d) - 49) && (ord (lower_char d) - 49 <? 8))
    then Raise (CoordinateParseError "Row out of bounds")
    else if negb ((0 <=? ord (lower_char c) - 97) && (ord (lower_char c) - 97 <? 8))
    then Raise (CoordinateParseError "Col out of bounds")
    else Ok (ord (lower_char d) - 49, ord (lower_char c) - 97).
Proof. reflexivity. Qed.

Lemma parse_coordinate_length s :
  String.length s ≠ 2%nat →
  parse_coordinate s = Raise (CoordinateParseError "Input must be length 2").
Proof.
  intros H. unfold parse_coordinate.
  destruct (Z.eqb_spec (Z.of_nat (String.length s)) 2); [lia | done].
Qed.

Ltac case_tests :=
  repeat match goal with
         | |- context [?a <=? ?b] => destruct (Z.leb_spec a b)
         | |- context [?a <? ?b] => destruct (Z.ltb_spec a b)
         | |- context [?a =? ?b] => destruct (Z.eqb_spec a b)
         end; simpl.

(** The lower-cased digit is in 1-8 exactly when the digit is. *)
Lemma row_test d :
  (0 <=? ord (lower_char d) - 49) && (ord (lower_char d) - 49 <? 8) = true
  ↔ 49 ≤ ord d ≤ 56.
Proof.
  rewrite ord_lower_char. pose proof (ord_bounds d).
  rewrite andb_true_iff, Z.leb_le, Z.ltb_lt.
  case_tests; lia.
Qed.

(** The lower-cased letter is in a-h exactly when the letter is in a-h
    or A-H. *)
Lemma col_test c :
  (0 <=? ord (lower_char c) - 97) && (ord (lower_char c) - 97 <? 8) = true
  ↔ (97 ≤ ord c ≤ 104) ∨ (65 ≤ ord c ≤ 72).
Proof.
  rewrite ord_lower_char. pose proof (ord_bounds c).
  rewrite andb_true_iff, Z.leb_le, Z.ltb_lt.
  case_tests; lia.
Qed.

(** C7: [parse_coordinate] returns a coordinate in [0,7]x[0,7] on a move
    token and raises [CoordinateParseError] on every other input, so it
    raises exactly on the inputs that are not a move token.  "i1", "a9",
    "a" and "abc" raise [CoordinateParseError]; "H8" and "h8" both give
    (7,7). *)
Theorem C7_parse_coordinate :
  (∀ s : string,
     (is_move_token s
      ∧ ∃ row col, parse_coordinate s = Ok (row, col)
          ∧ 0 ≤ row ≤ 7 ∧ 0 ≤ col ≤ 7)
     ∨ (¬ is_move_token s
        ∧ ∃ msg, parse_coordinate s = Raise (CoordinateParseError msg)))
  ∧ (∃ msg, parse_coordinate "i1" = Raise (CoordinateParseError msg))
  ∧ (∃ msg, parse_coordinate "a9" = Raise (CoordinateParseError msg))
  ∧ (∃ msg, parse_coordinate "a" = Raise (CoordinateParseError msg))
  ∧ (∃ msg, parse_coordinate "abc" = Raise (CoordinateParseError msg))
  ∧ parse_coordinate "H8" = Ok (7, 7)
  ∧ parse_coordinate "h8" = Ok (7, 7).
Proof.
  split; [|repeat split; try reflexivity; eexists; reflexivity].
  intros s.
  assert (String.length s ≠ 2%nat →
          ¬ is_move_token s
          ∧ ∃ msg, parse_coordinate s = Raise (CoordinateParseError msg)) as Hlen.
  { intros H. split.
    - intros (c & d & -> & _). by apply H.
    - rewrite parse_coordinate_length by done. eauto. }
  destruct s as [|c [|d [|e s]]]; [right; by apply Hlen..| |right; by apply Hlen].
  rewrite parse_coordinate_two.
  destruct ((0 <=? ord (lower_char d) - 49) && (ord (lower_char d) - 49 <? 8)) eqn:Hrow;
    simpl.
  - destruct ((0 <=? ord (lower_char c) - 97) && (ord (lower_char c) - 97 <? 8)) eqn:Hcol;
      simpl.
    + left. split.
      * exists c, d. split; [done|]. apply row_test in Hrow. apply col_test in Hcol.
        change (ord "a") with 97. change (ord "h") with 104.
        change (ord "A") with 65. change (ord "H") with 72.
        change (ord "1") with 49. change (ord "8") with 56. lia.
      * eexists _, _. split; [done|].
        apply andb_true_iff in Hrow as [?%Z.leb_le ?%Z.ltb_lt].
        apply andb_true_iff in Hcol as [?%Z.leb_le ?%Z.ltb_lt]. lia.
    + right. split; [|eauto].
      intros (c' & d' & [= <- <-] & Hc & _).
      apply not_true_iff_false in Hcol. apply Hcol. apply col_test.
      revert Hc. change (ord "a") with 97. change (ord "h") with 104.
      change (ord "A") with 65. change (ord "H") with 72. lia.
  - right. split; [|eauto].
    intros (c' & d' & [= <- <-] & _ & Hd).
    apply not_true_iff_false in Hrow. apply Hrow. apply row_test.
    revert Hd. change (ord "1") with 49. change (ord "8") with 56. lia.
Qed.

(** ** Runs of the game loop *)

Lemma run_passes_reachable inp n :
  ∀ s evs evs' s',
    reachable inp evs s → run_passes n s evs = (evs', s') → reachable inp evs' s'.
Proof.
  induction n as [|n IH]; intros s evs evs' s' Hreach Hrun; simpl in Hrun.
  - by injection Hrun as <- <-.
  - destruct (loop_body s) as [out [ev s1|en]] eqn:Hbody.
    + apply (IH s1 (ev :: evs)); [|done]. by apply (reach_step inp evs s out).
    + by injection Hrun as <- <-.
Qed.

Lemma wipeout_reachable : reachable wipeout_input wipeout_events wipeout_state.
Proof.
  apply (run_passes_reachable wipeout_input 10
           (State initial_board BLACK 0 wipeout_input) []).
  - apply reach_init. reflexivity.
  - vm_compute. reflexivity.
Qed.

Lemma wipeout_game_over :
  loop_body wipeout_state
  = ([ board_str (board wipeout_state);
       "black has no valid moves. Skipping turn."; ""; "Black wins!" ],
     Leave GameOver).
Proof. vm_compute. reflexivity. Qed.

(** ** C4: the number of discs *)

(** C4: at the head of the loop of [play_game], in every reachable state,
    the number of occupied cells is 4 plus the number of moves applied so
    far and at most 64; a pass that applies a move adds exactly one disc,
    and every other pass leaves the number as it is. *)
Theorem C4_disc_count inp evs s :
  reachable inp evs s →
  occupied (board s) = 4 + moves_applied evs
  ∧ occupied (board s) ≤ 64
  ∧ (∀ out ev s', loop_body s = (out, Continue ev s') →
       occupied (board s')
       = occupied (board s) + (if decide (ev = Applied) then 1 else 0)).
Proof.
  intros Hreach.
  destruct (reachable_invariant inp evs s Hreach) as (Hwf & Hocc & _).
  split; [done|]. split; [apply (occupied_bounds _ Hwf)|].
  intros out ev s' Hbody.
  destruct (reachable_invariant inp (ev :: evs) s') as (_ & Hocc' & _).
  { by apply (reach_step inp evs s out). }
  rewrite moves_applied_cons in Hocc'. lia.
Qed.

Lemma C4_disc_count_witness :
  occupied (board wipeout_state) = 4 + moves_applied wipeout_events
  ∧ occupied (board wipeout_state) ≤ 64.
Proof.
  destruct (C4_disc_count wipeout_input wipeout_events wipeout_state
              wipeout_reachable) as (H1 & H2 & _).
  split; [exact H1 | exact H2].
Defined.

(** ** C5: the skip counter *)

Lemma full_board_get b r c :
  wf_board b → is_board_full b = true → in_bounds r c = true →
  ∃ x, board_get b r c = Ok (Some x).
Proof.
  intros Hwf Hfull Hin. apply in_bounds_true in Hin as Hrc.
  rewrite board_get_nonneg by lia.
  destruct (wf_lookup2 b (Z.to_nat r) (Z.to_nat c) Hwf) as [x Hx]; [lia..|].
  rewrite Hx. unfold lookup2 in Hx.
  destruct (b !! Z.to_nat r) as [row|] eqn:Hrow; simpl in Hx; [|done].
  unfold is_board_full in Hfull. rewrite forallb_forall in Hfull.
  specialize (Hfull row (proj1 (list_elem_of_In _ _) (list_elem_of_lookup_2 _ _ _ Hrow))).
  rewrite forallb_forall in Hfull.
  specialize (Hfull x (proj1 (list_elem_of_In _ _) (list_elem_of_lookup_2 _ _ _ Hx))).
  destruct x as [x|]; [eauto | done].
Qed.

(** On a full board nobody has a valid move. *)
Lemma full_board_no_valid_moves b color :
  wf_board b → is_board_full b = true → no_valid_moves b color = Ok true.
Proof.
  intros Hwf Hfull.
  destruct (no_valid_moves_spec b color Hwf) as (v & Hv & Hiff).
  rewrite Hv. f_equal. apply Hiff. intros move _.
  destruct (in_bounds move.1 move.2) eqn:Hin;
    [|by apply valid_move_out_of_bounds].
  destruct (full_board_get b _ _ Hwf Hfull Hin) as [x Hx].
  unfold valid_move. rewrite Hin, Hx. done.
Qed.

(** C5: at the head of the loop the skip counter is 0 or 1.  A pass in
    which the player to move has no valid move adds exactly 1 to it and
    passes the turn to the opponent; after a pass that applies a move it
    is 0.  The loop is left with the winner printed only when the counter
    reaches 2, in a pass without a valid move that directly follows a
    skipped turn.  A full board alone does not end the loop: with the
    counter at 0 the pass is a skipped turn like any other. *)
Theorem C5_skip_counter inp evs s out ctl :
  reachable inp evs s →
  loop_body s = (out, ctl) →
  (skip s = 0 ∨ skip s = 1)
  ∧ (no_valid_moves (board s) (turn s) = Ok true →
       (skip s = 0 →
          ctl = Continue Skipped
                  (State (board s) (other_player (turn s)) 1 (input s)))
       ∧ (skip s = 1 → ctl = Leave GameOver))
  ∧ (∀ s', ctl = Continue Skipped s' →
       no_valid_moves (board s) (turn s) = Ok true
       ∧ skip s' = skip s + 1
       ∧ turn s' = other_player (turn s)
       ∧ board s' = board s)
  ∧ (∀ s', ctl = Continue Applied s' → skip s' = 0)
  ∧ (ctl = Leave GameOver →
       no_valid_moves (board s) (turn s) = Ok true
       ∧ skip s + 1 = 2
       ∧ ∃ evs', evs = Skipped :: evs')
  ∧ (is_board_full (board s) = true → skip s = 0 →
       ∃ s', ctl = Continue Skipped s').
Proof.
  intros Hreach Hbody.
  destruct (reachable_invariant inp evs s Hreach) as (Hwf & _ & Hskip).
  assert (skip s = 0 ∨ skip s = 1) as H01 by (case_decide; lia).
  assert (no_valid_moves (board s) (turn s) = Ok true →
          (skip s = 0 →
             ctl = Continue Skipped
                     (State (board s) (other_player (turn s)) 1 (input s)))
          ∧ (skip s = 1 → ctl = Leave GameOver)) as Hfwd.
  { intros Hnv. unfold loop_body in Hbody. rewrite Hnv in Hbody.
    split; intros Hs; rewrite Hs in Hbody; simpl in Hbody; by injection Hbody as <- <-. }
  pose proof (loop_body_inv s out ctl Hwf Hbody) as Hinv.
  split; [done|]. split; [done|]. split; [|split; [|split]].
  - intros s' ->. simpl in Hinv. destruct Hinv as (Hnv & _ & ->). done.
  - intros s' ->. simpl in Hinv.
    destruct Hinv as (_ & str & move & b' & _ & _ & _ & _ & ->). done.
  - intros ->. simpl in Hinv. destruct Hinv as (Hnv & Hge & _).
    split; [done|]. split; [lia|].
    destruct evs as [|ev evs']; simpl in Hskip; [lia|].
    case_decide as Hhd; [|lia]. injection Hhd as ->. eauto.
  - intros Hfull Hs.
    destruct (Hfwd (full_board_no_valid_moves _ (turn s) Hwf Hfull)) as [H0 _].
    eauto.
Qed.

Lemma C5_skip_counter_witness :
  skip wipeout_state + 1 = 2
  ∧ ∃ evs', wipeout_events = Skipped :: evs'.
Proof.
  destruct (C5_skip_counter wipeout_input wipeout_events wipeout_state _ _
              wipeout_reachable wipeout_game_over)
    as (_ & _ & _ & _ & H & _).
  destruct (H eq_refl) as (_ & H2 & H3).
  split; [exact H2 | exact H3].
Defined.

(** ** C6: the reported outcome *)

Lemma winner_spec b :
  count_tokens_and_determine_winner b
  = if count_color BLACK b >? count_color WHITE b then "Black wins!"
    else if count_color WHITE b >? count_color BLACK b then "White wins!"
    else "It's a tie!".
Proof. unfold count_tokens_and_determine_winner. by rewrite count_tokens_eq. Qed.

(** C6: when the loop is left after two skipped turns in a row, the last
    line printed is the result of [count_tokens_and_determine_winner]:
    "Black wins!" if the board holds more Black than White discs, "White
    wins!" if it holds more White than Black discs, and "It's a tie!" if
    the two counts are equal. *)
Theorem C6_winner_report inp evs s out :
  reachable inp evs s →
  loop_body s = (out, Leave GameOver) →
  (∃ evs', evs = Skipped :: evs')
  ∧ no_valid_moves (board s) (turn s) = Ok true
  ∧ ∃ msg,
      last out = Some msg
      ∧ msg = count_tokens_and_determine_winner (board s)
      ∧ (count_color BLACK (board s) > count_color WHITE (board s) →
           msg = "Black wins!")
      ∧ (count_color WHITE (board s) > count_color BLACK (board s) →
           msg = "White wins!")
      ∧ (count_color BLACK (board s) = count_color WHITE (board s) →
           msg = "It's a tie!").
Proof.
  intros Hreach Hbody.
  destruct (reachable_invariant inp evs s Hreach) as (Hwf & _ & Hskip).
  pose proof (loop_body_inv s out _ Hwf Hbody) as (Hnv & Hge & ->).
  split; [|split; [done|]].
  - destruct evs as [|ev evs']; simpl in Hskip; [lia|].
    case_decide as Hhd; [|lia]. injection Hhd as ->. eauto.
  - exists (count_tokens_and_determine_winner (board s)).
    split; [done|]. split; [done|]. rewrite winner_spec.
    split; [|split]; intros H.
    + destruct (Z.gtb_spec (count_color BLACK (board s)) (count_color WHITE (board s)));
        [done | lia].
    + destruct (Z.gtb_spec (count_color BLACK (board s)) (count_color WHITE (board s)));
        [lia|].
      destruct (Z.gtb_spec (count_color WHITE (board s)) (count_color BLACK (board s)));
        [done | lia].
    + destruct (Z.gtb_spec (count_color BLACK (board s)) (count_color WHITE (board s)));
        [lia|].
      destruct (Z.gtb_spec (count_color WHITE (board s)) (count_color BLACK (board s)));
        [lia | done].
Qed.

Lemma C6_winner_report_witness :
  ∃ msg,
    last [ board_str (board wipeout_state);
           "black has no valid moves. Skipping turn."; ""; "Black wins!" ]
    = Some msg
    ∧ msg = count_tokens_and_determine_winner (board wipeout_state).
Proof.
  destruct (C6_winner_report wipeout_input wipeout_events wipeout_state _
              wipeout_reachable wipeout_game_over)
    as (_ & _ & msg & H1 & H2 & _).
  exists msg. split; [exact H1 | exact H2].
Defined.

(** ** C8: rejected input *)

(** A pass in which the player has a valid move prints the board and the
    prompt first. *)
Lemma loop_body_prompt s out ctl :
  no_valid_moves (board s) (turn s) = Ok false →
  loop_body s = (out, ctl) →
  take 2 out
  = [ board_str (board s); "Enter move for " +:+ color_name (turn s) +:+ ": " ].
Proof.
  intros Hnv. unfold loop_body. rewrite Hnv.
  destruct (next (input s)) as [line input']. unfold escape, handle.
  repeat case_match; intros [= <- <-]; done.
Qed.

(** When the player has a valid move, the pass does not depend on the
    value of the skip counter at the head of the loop: line 277 sets it to
    0 before the prompt. *)
Lemma loop_body_skip_irrelevant s :
  no_valid_moves (board s) (turn s) = Ok false →
  loop_body (State (board s) (turn s) 0 (input s)) = loop_body s.
Proof. intros Hnv. unfold loop_body. simpl. by rewrite Hnv. Qed.

(** C8: a pass that ends in a parse error or in a move rejected by
    [valid_move] leaves the board and the player to move as they were; the
    skip counter is 0, as it is at every prompt (its value at the head of
    the pass has no effect on the pass); the next pass prints the same
    board and the same prompt, and [valid_move] gives there the same
    results as before. *)
Theorem C8_rejected_input s out ev s' :
  wf_board (board s) →
  loop_body s = (out, Continue ev s') →
  ev = ParseFailed ∨ ev = Rejected →
  board s' = board s
  ∧ turn s' = turn s
  ∧ skip s' = 0
  ∧ input s' = (next (input s)).2
  ∧ loop_body (State (board s) (turn s) 0 (input s)) = loop_body s
  ∧ (∀ out' ctl', loop_body s' = (out', ctl') → take 2 out' = take 2 out)
  ∧ (∀ move, valid_move (board s') (turn s') move
             = valid_move (board s) (turn s) move).
Proof.
  intros Hwf Hbody Hev.
  pose proof (loop_body_inv s out _ Hwf Hbody) as Hinv.
  assert (no_valid_moves (board s) (turn s) = Ok false
          ∧ s' = State (board s) (turn s) 0 (next (input s)).2) as [Hnv ->].
  { destruct Hev as [-> | ->]; simpl in Hinv; by destruct Hinv as (? & ? & _). }
  simpl. split; [done|]. split; [done|]. split; [done|]. split; [done|].
  split; [by apply loop_body_skip_irrelevant|]. split; [|done].
  intros out' ctl' Hbody'.
  rewrite (loop_body_prompt _ _ _ Hnv Hbody).
  by rewrite (loop_body_prompt (State (board s) (turn s) 0 (next (input s)).2)
                _ _ Hnv Hbody').
Qed.

Lemma C8_rejected_input_witness :
  let s := State initial_board BLACK 0 [Ok "zz"; Ok "a1"] in
  let s' := State initial_board BLACK 0 [Ok "a1"] in
  board s' = board s ∧ turn s' = turn s ∧ skip s' = 0.
Proof.
  intros s s'.
  destruct (C8_rejected_input s
              [ board_str initial_board; "Enter move for black: ";
                "Invalid move: Row out of bounds"; "" ]
              ParseFailed s')
    as (H1 & H2 & H3 & _).
  - split; [reflexivity | repeat constructor].
  - vm_compute. reflexivity.
  - left. reflexivity.
  - split; [exact H1 | split; [exact H2 | exact H3]].
Defined.

(** * Further properties of the code *)

(** ** [no_valid_moves] *)

Lemma no_valid_moves_loop_false b color coords :
  no_valid_moves_loop b color coords = Ok false →
  ∃ move, move ∈ coords ∧ valid_move b color move = Ok true.
Proof.
  induction coords as [|mv coords IH]; simpl; [done|].
  destruct (valid_move b color mv) as [v|e|] eqn:Hv; simpl; [|done..].
  destruct v.
  - intros _. exists mv. split; [left | done].
  - intros H. destruct (IH H) as (move & Hel & Hmove).
    exists move. split; [by right | done].
Qed.

Lemma all_coordinates_in_bounds move :
  move ∈ all_coordinates → in_bounds move.1 move.2 = true.
Proof.
  unfold all_coordinates, SIZE. intros H.
  apply list_elem_of_bind in H as (r & H & Hr%elem_of_seqZ).
  apply list_elem_of_bind in H as (c & H & Hc%elem_of_seqZ).
  apply list_elem_of_singleton in H as ->. simpl.
  apply in_bounds_true. lia.
Qed.

(** X1: on a board of 8 rows of 8 cells [no_valid_moves] returns a
    boolean; it is [True] exactly when [valid_move] rejects every
    coordinate, and [False] exactly when [valid_move] accepts some
    coordinate of the board. *)
Theorem X1_no_valid_moves_iff b color :
  wf_board b →
  ∃ v, no_valid_moves b color = Ok v
     ∧ (v = true ↔ ∀ move : Z * Z, valid_move b color move = Ok false)
     ∧ (v = false ↔
          ∃ move : Z * Z,
            in_bounds move.1 move.2 = true ∧ valid_move b color move = Ok true).
Proof.
  intros Hwf. destruct (no_valid_moves_spec b color Hwf) as (v & Hv & Hiff).
  exists v. split; [done|]. split.
  - rewrite Hiff. split.
    + intros H move. destruct (in_bounds move.1 move.2) eqn:Hin.
      * apply H. destruct move. by apply all_coordinates_elem.
      * by apply valid_move_out_of_bounds.
    + intros H move _. apply H.
  - split.
    + intros ->. apply no_valid_moves_loop_false in Hv as (move & Hel & Hmove).
      exists move. split; [by apply all_coordinates_in_bounds | done].
    + intros (move & Hin & Hmove). destruct v; [|done].
      assert (valid_move b color move = Ok false) as Hno; [|congruence].
      apply Hiff; [done|]. destruct move. by apply all_coordinates_elem.
Qed.

Lemma X1_no_valid_moves_iff_witness :
  wf_board initial_board
  ∧ ∃ v, no_valid_moves initial_board BLACK = Ok v
       ∧ (v = true ↔ ∀ move : Z * Z, valid_move initial_board BLACK move = Ok false).
Proof.
  split; [split; [reflexivity | repeat constructor]|].
  destruct (X1_no_valid_moves_iff initial_board BLACK) as (v & Hv & Hiff & _);
    [split; [reflexivity | repeat constructor]|].
  exists v. split; [exact Hv | exact Hiff].
Defined.

(** ** [is_board_full] *)

Lemma row_full_count row :
  forallb (λ cell : option Color, negb (bool_decide (cell = None))) row = true
  ↔ count_row BLACK row + count_row WHITE row = Z.of_nat (length row).
Proof.
  induction row as [|x row IH]; simpl; [done|].
  pose proof (count_row_both row) as Hle.
  rewrite andb_true_iff, IH. unfold holds.
  destruct x as [[]|]; simpl; split; try lia; intros H; split; try done; lia.
Qed.

Lemma board_full_count b :
  Forall (λ row, length row = 8%nat) b →
  count_color BLACK b + count_color WHITE b ≤ 8 * Z.of_nat (length b)
  ∧ (is_board_full b = true
     ↔ count_color BLACK b + count_color WHITE b = 8 * Z.of_nat (length b)).
Proof.
  induction 1 as [|row b Hrow _ [IHle IH]]; simpl; [done|].
  pose proof (count_row_both row) as Hle. split; [lia|].
  unfold is_board_full in *. simpl. rewrite andb_true_iff, IH, row_full_count.
  lia.
Qed.

(** X2: on a board of 8 rows of 8 cells [is_board_full] is [True] exactly
    when the two counts of [count_tokens_and_determine_winner] add up to 64,
    and exactly when every cell of the board holds a disc. *)
Theorem X2_is_board_full b :
  wf_board b →
  (is_board_full b = true ↔ occupied b = 64)
  ∧ (is_board_full b = true
     ↔ ∀ r c, in_bounds r c = true → ∃ x, board_get b r c = Ok (Some x)).
Proof.
  intros Hwf. split.
  - destruct Hwf as [Hlen Hrows]. rewrite occupied_eq.
    destruct (board_full_count b Hrows) as [_ ->]. lia.
  - split; [intros Hfull r c; by apply full_board_get|].
    intros Hall. unfold is_board_full. apply forallb_forall. intros row Hrow.
    apply forallb_forall. intros x Hx.
    apply list_elem_of_In, list_elem_of_lookup in Hrow as [i Hi].
    apply list_elem_of_In, list_elem_of_lookup in Hx as [j Hj].
    destruct Hwf as [Hlen Hrows].
    pose proof (lookup_lt_Some _ _ _ Hi) as Hi8.
    pose proof (lookup_lt_Some _ _ _ Hj) as Hj8.
    rewrite Forall_lookup in Hrows. rewrite (Hrows _ _ Hi) in Hj8.
    destruct (Hall (Z.of_nat i) (Z.of_nat j)) as [y Hy];
      [apply in_bounds_true; lia|].
    rewrite board_get_nonneg in Hy by lia. unfold lookup2 in Hy.
    rewrite !Nat2Z.id, Hi in Hy. simpl in Hy. rewrite Hj in Hy.
    injection Hy as ->. done.
Qed.

Lemma X2_is_board_full_witness :
  wf_board initial_board
  ∧ (is_board_full initial_board = true ↔ occupied initial_board = 64).
Proof.
  split; [split; [reflexivity | repeat constructor]|].
  apply (X2_is_board_full initial_board).
  split; [reflexivity | repeat constructor].
Defined.

(** X3: a full board ends the game through the skip rule alone.  From a
    loop head with a full board and the skip counter at 0, the pass skips
    the player to move without reading input, and the next pass skips the
    opponent, prints the winner and leaves the loop. *)
Theorem X3_full_board_ends_game s :
  wf_board (board s) →
  is_board_full (board s) = true →
  skip s = 0 →
  let s1 := State (board s) (other_player (turn s)) 1 (input s) in
  (∃ out1, loop_body s = (out1, Continue Skipped s1))
  ∧ ∃ out2,
      loop_body s1
      = (out2 ++ [count_tokens_and_determine_winner (board s)], Leave GameOver).
Proof.
  intros Hwf Hfull Hskip s1. split.
  - unfold loop_body.
    rewrite (full_board_no_valid_moves _ (turn s) Hwf Hfull), Hskip. simpl.
    eauto.
  - unfold loop_body. subst s1. cbn [board turn skip input].
    rewrite (full_board_no_valid_moves _ (other_player (turn s)) Hwf Hfull).
    simpl.
    by exists [ board_str (board s);
                color_name (other_player (turn s))
                  +:+ " has no valid moves. Skipping turn."; "" ].
Qed.

Lemma full_board_wf : wf_board full_board.
Proof. split; [reflexivity | repeat constructor]. Qed.

Lemma X3_full_board_ends_game_witness :
  ∃ out2,
    loop_body (State full_board BLACK 1 [])
    = (out2 ++ [count_tokens_and_determine_winner full_board], Leave GameOver).
Proof.
  destruct (X3_full_board_ends_game (State full_board WHITE 0 []))
    as [_ H]; [apply full_board_wf | reflexivity | reflexivity |].
  exact H.
Defined.

(** ** The discs gained and lost by a move *)

(** The loop of [do_flip] moves [F] discs from the opponent to the mover,
    and when [F] is 0 it leaves the board as it is. *)
Lemma do_flip_loop_counts color move :
  in_bounds move.1 move.2 = true →
  ∀ ds bc,
    Forall (λ d, d ≠ (0, 0)) ds → wf_board bc →
    ∃ b' (F : nat),
      for_each (do_flip_direction color move) bc ds = Ok b'
      ∧ wf_board b'
      ∧ count_color color b' = count_color color bc + Z.of_nat F
      ∧ count_color (opponent color) b'
        = count_color (opponent color) bc - Z.of_nat F
      ∧ (F = 0%nat → b' = bc).
Proof.
  intros Hin. induction ds as [|d ds IH]; intros bc Hds Hwf.
  - exists bc, 0%nat. simpl. split; [done|]. split; [done|].
    split; [lia|]. split; [lia | done].
  - apply Forall_cons in Hds as [Hd Hds].
    destruct (is_flippable_line_total bc move color d Hwf Hin Hd) as [f Hf].
    rewrite for_each_cons, (do_flip_direction_eq _ _ _ _ _ Hf). destruct f.
    + apply is_flippable_line_true in Hf as (n & Hn & Hbk).
      pose proof (bookended_short _ _ _ _ _ Hn Hbk) as Hn7.
      pose proof while_budget_ge as Hwb.
      destruct (flip_line_budget_spec bc move color d n while_budget ltac:(lia) Hbk)
        as (b1 & Hfl & _ & _ & Hwf1 & Hc1 & Hc2).
      unfold flip_line. rewrite Hfl. cbn [mbind result_bind fst].
      destruct (IH b1 Hds (Hwf1 Hwf)) as (b' & F & Hloop & Hwf' & Hc1' & Hc2' & _).
      exists b', (n + F)%nat. split; [done|]. split; [done|].
      split; [lia|]. split; [lia|]. intros ?. lia.
    + cbn [mbind result_bind].
      destruct (IH bc Hds Hwf) as (b' & F & Hloop & Hwf' & Hc1' & Hc2' & Hsame).
      exists b', F. done.
Qed.

(** X4: a move that [valid_move] accepts turns over at least one disc: the
    placement followed by [do_flip] raises the number of the mover's discs
    by [1 + F] and lowers the number of the opponent's discs by [F], for
    some [F >= 1]. *)
Theorem X4_move_gains b color move :
  wf_board b →
  valid_move b color move = Ok true →
  ∃ b' (F : Z),
    apply_move b color move = Ok b'
    ∧ 1 ≤ F
    ∧ count_color color b' = count_color color b + 1 + F
    ∧ count_color (opponent color) b' = count_color (opponent color) b - F.
Proof.
  intros Hwf Hvalid.
  destruct (valid_move_spec b color move Hwf) as (v & Hv & Hiff).
  rewrite Hvalid in Hv. injection Hv as <-.
  destruct (proj1 Hiff eq_refl) as (Hin & Hget & d & Hd & n & Hn & Hbk).
  apply in_bounds_true in Hin as Hrc.
  destruct (board_set_spec b move.1 move.2 None (Some color) ltac:(lia) ltac:(lia) Hget)
    as (b0 & Hset & _ & Hother & Hwf0 & _).
  destruct (do_flip_loop_counts color move Hin directions b0 directions_nonzero
              (Hwf0 Hwf)) as (b' & F & Hloop & Hwf' & Hc1 & Hc2 & Hsame).
  assert (apply_move b color move = Ok b') as Happly.
  { unfold apply_move. rewrite Hset. done. }
  pose proof (opponent_neq color) as Hopp.
  exists b', (Z.of_nat F). split; [done|]. split; [|split].
  - destruct F as [|F]; [|lia]. specialize (Hsame eq_refl). subst b'.
    destruct (apply_move_spec b color move Hwf Hin Hget)
      as (b'' & Happly' & _ & _ & Hflip & _).
    rewrite Happly in Happly'. injection Happly' as <-.
    assert (flipped_by b move color (ray move d 1)) as Hfb.
    { exists d, n, 1%nat. split; [done|]. split; [done|]. split; [done|].
      split; [lia | done]. }
    apply Hflip in Hfb.
    destruct Hbk as [Hrun _]. destruct (Hrun 1%nat) as [Hin1 Hget1]; [lia|].
    apply in_bounds_true in Hin1 as Hrc1.
    rewrite Hother in Hfb; [congruence | lia | lia |].
    rewrite <- !surjective_pairing. by apply directions_ray_neq.
  - rewrite Hc1.
    rewrite (board_set_count b move.1 move.2 None (Some color) b0 color)
      by (done || lia).
    unfold holds. rewrite decide_False by done. rewrite decide_True by done. lia.
  - rewrite Hc2.
    rewrite (board_set_count b move.1 move.2 None (Some color) b0 (opponent color))
      by (done || lia).
    unfold holds. rewrite !decide_False by congruence. lia.
Qed.

Lemma X4_move_gains_witness :
  ∃ b' (F : Z),
    apply_move initial_board BLACK (2, 4) = Ok b'
    ∧ 1 ≤ F
    ∧ count_color BLACK b' = count_color BLACK initial_board + 1 + F.
Proof.
  destruct (X4_move_gains initial_board BLACK (2, 4))
    as (b' & F & H1 & H2 & H3 & _);
    [apply initial_board_wf | vm_compute; reflexivity |].
  exists b', F. split; [exact H1 | split; [exact H2 | exact H3]].
Defined.

(** ** What can end the loop *)

(** [parse_coordinate] returns a coordinate or raises
    [CoordinateParseError], nothing else. *)
Lemma parse_coordinate_cases s :
  (∃ move, parse_coordinate s = Ok move)
  ∨ ∃ msg, parse_coordinate s = Raise (CoordinateParseError msg).
Proof.
  destruct s as [|c [|d [|e s]]];
    try (right; rewrite parse_coordinate_length by (simpl; lia); eauto).
  rewrite parse_coordinate_two. repeat case_match; eauto.
Qed.

(** X5: from a loop head with a board of 8 rows of 8 cells, a pass never
    fails and never hangs inside the rules engine: when the loop is left,
    either the winner was printed after two skipped turns, or [next(input)]
    raised [EOFError] or [KeyboardInterrupt] (the handlers break), or
    [next(input)] raised another exception, which leaves [play_game]
    uncaught, or [next(input)] itself did not return.  No [IndexError] or
    [RecursionError] comes from the board code. *)
Theorem X5_loop_exits s out en :
  wf_board (board s) →
  loop_body s = (out, Leave en) →
  match en with
  | GameOver => no_valid_moves (board s) (turn s) = Ok true ∧ 2 ≤ skip s + 1
  | InputClosed =>
      no_valid_moves (board s) (turn s) = Ok false
      ∧ ((next (input s)).1 = Raise EOFError
         ∨ (next (input s)).1 = Raise KeyboardInterrupt)
  | Uncaught e =>
      no_valid_moves (board s) (turn s) = Ok false
      ∧ (next (input s)).1 = Raise e
      ∧ (∀ msg, e ≠ CoordinateParseError msg)
      ∧ e ≠ EOFError ∧ e ≠ KeyboardInterrupt
  | Hung =>
      no_valid_moves (board s) (turn s) = Ok false
      ∧ (next (input s)).1 = Timeout
  end.
Proof.
  intros Hwf. unfold loop_body.
  destruct (no_valid_moves_spec (board s) (turn s) Hwf) as (v & Hnv & _).
  rewrite Hnv. destruct v.
  - destruct (Z.leb_spec 2 (skip s + 1)); intros [= <- <-]. done.
  - destruct (next (input s)) as [line input'] eqn:Hnext. simpl.
    destruct line as [str|e|].
    + destruct (parse_coordinate_cases (rstrip str)) as [[move ->]|[msg ->]];
        [|by intros [= <- <-]].
      destruct (valid_move_spec (board s) (turn s) move Hwf) as (v & Hv & Hiff).
      rewrite Hv. unfold escape. destruct v; simpl; [|by intros [= <- <-]].
      destruct (proj1 Hiff eq_refl) as (Hin & Hget & _).
      destruct (apply_move_spec (board s) (turn s) move Hwf Hin Hget)
        as (b' & -> & _).
      by intros [= <- <-].
    + destruct e; simpl; intros [= <- <-]; try done; auto.
    + by intros [= <- <-].
Qed.

Lemma X5_loop_exits_witness :
  no_valid_moves initial_board BLACK = Ok false
  ∧ (next (@nil (result string))).1 = Raise StopIteration.
Proof.
  destruct (X5_loop_exits (State initial_board BLACK 0 [])
              [board_str initial_board; "Enter move for black: "]
              (Uncaught StopIteration))
    as (H1 & H2 & _); [apply initial_board_wf | vm_compute; reflexivity |].
  split; [exact H1 | exact H2].
Defined.

(** ** [do_flip] after a move *)

(** Every cell of the board after a move either was turned to the mover's
    colour or is as before. *)
Lemma apply_move_cases b color move :
  wf_board b → in_bounds move.1 move.2 = true →
  board_get b move.1 move.2 = Ok None →
  ∃ b',
    apply_move b color move = Ok b'
    ∧ wf_board b'
    ∧ ∀ p : Z * Z, in_bounds p.1 p.2 = true →
        ((p = move ∨ flipped_by b move color p)
         ∧ board_get b' p.1 p.2 = Ok (Some color))
        ∨ (p ≠ move ∧ ¬ flipped_by b move color p
           ∧ board_get b' p.1 p.2 = board_get b p.1 p.2).
Proof.
  intros Hwf Hin Hget.
  destruct (apply_move_spec b color move Hwf Hin Hget)
    as (b' & Happly & Hwf' & Hnew & Hflip & Hrest & _).
  apply in_bounds_true in Hin as Hrc.
  destruct (board_set_spec b move.1 move.2 None (Some color) ltac:(lia) ltac:(lia) Hget)
    as (b0 & Hset & _ & Hother & Hwf0 & _).
  destruct (do_flip_loop_spec b color move Hin directions b0 directions_NoDup
              ltac:(done) (Hwf0 Hwf)) as (b'' & Hloop & _ & Hcells & _).
  { intros d k Hd Hk p Hp. apply in_bounds_true in Hp as Hp'.
    apply Hother; [lia..|]. subst p. rewrite <- !surjective_pairing.
    by apply directions_ray_neq. }
  assert (b'' = b') as ->.
  { unfold apply_move in Happly. rewrite Hset in Happly.
    change (do_flip b0 color move = Ok b') in Happly.
    unfold do_flip in Happly. congruence. }
  exists b'. split; [done|]. split; [done|]. intros p Hp.
  destruct (decide (p = move)) as [->|Hne]; [left; split; [by left | done]|].
  destruct (Hcells p Hp) as [[Hfl Hc]|[Hnf Hc]].
  - left. split; [by right | done].
  - right. split; [done|]. split; [done|]. by apply Hrest.
Qed.

Lemma do_flip_loop_nothing color move b ds :
  (∀ d, d ∈ ds → is_flippable_line b move color d = Ok false) →
  for_each (do_flip_direction color move) b ds = Ok b.
Proof.
  induction ds as [|d ds IH]; intros H; [done|].
  rewrite for_each_cons, (do_flip_direction_eq _ _ _ _ false) by (apply H; left).
  cbn [mbind result_bind]. apply IH. intros d' Hd'. apply H. by right.
Qed.

(** X6: [do_flip] is idempotent after a move.  On the board that a valid
    move produces, no direction from the placed disc is a flippable line
    any more, so calling [do_flip] for the same move again returns the
    board unchanged. *)
Theorem X6_do_flip_idempotent b color move b' :
  wf_board b →
  valid_move b color move = Ok true →
  apply_move b color move = Ok b' →
  (∀ d, d ∈ directions → is_flippable_line b' move color d = Ok false)
  ∧ do_flip b' color move = Ok b'.
Proof.
  intros Hwf Hvalid Happly.
  destruct (valid_move_spec b color move Hwf) as (v & Hv & Hiff).
  rewrite Hvalid in Hv. injection Hv as <-.
  destruct (proj1 Hiff eq_refl) as (Hin & Hget & _).
  destruct (apply_move_cases b color move Hwf Hin Hget)
    as (b'' & Happly' & Hwf' & Hcells).
  rewrite Happly in Happly'. injection Happly' as <-.
  pose proof (opponent_neq color) as Hopp.
  assert (∀ d, d ∈ directions → is_flippable_line b' move color d = Ok false)
    as Hnone; [|split; [done | by apply do_flip_loop_nothing]].
  intros d Hd.
  destruct (is_flippable_line_total b' move color d Hwf' Hin (direction_nonzero d Hd))
    as [f Hf].
  destruct f; [|done]. exfalso.
  apply is_flippable_line_true in Hf as (n & Hn & Hrun & Hend).
  (* the first cell of the line is untouched by the move *)
  destruct (Hrun 1%nat) as [Hin1 Hget1]; [lia|].
  destruct (Hcells _ Hin1) as [[_ Hc]|(_ & Hnf1 & _)]; [congruence|].
  apply Hnf1.
  (* the run of opponent cells is the same before the move *)
  assert (∀ k : nat, (1 ≤ k ≤ n)%nat →
            cell_is b (ray move d k) (Some (opponent color))) as Hrun_b.
  { intros k Hk. destruct (Hrun k Hk) as [Hink Hgetk]. split; [done|].
    destruct (Hcells _ Hink) as [[_ Hc]|(_ & _ & Hc)]; congruence. }
  destruct Hend as [Hine Hgete].
  destruct (Hcells _ Hine) as [[[Hm|Hfl] _]|(_ & _ & Hc)].
  - by apply directions_ray_neq in Hm; [|done|lia].
  - destruct Hfl as (d' & n' & k' & Hd' & Hn' & Hbk' & Hk' & Heq).
    destruct (decide (d = d')) as [<-|Hdd].
    + exists d, n', 1%nat. split; [done|]. split; [done|]. split; [done|].
      split; [lia | done].
    + exfalso. by apply (rays_disjoint move d d' (n + 1) k' Hd Hd' Hdd); [lia..|].
  - exists d, n, 1%nat. split; [done|]. split; [done|].
    split; [|split; [lia | done]].
    split; [done|]. split; [done | congruence].
Qed.

Lemma X6_do_flip_idempotent_witness :
  ∃ b', apply_move initial_board BLACK (2, 4) = Ok b'
      ∧ do_flip b' BLACK (2, 4) = Ok b'.
Proof.
  destruct (apply_move initial_board BLACK (2, 4)) as [b'| |] eqn:Happly;
    [|vm_compute in Happly; discriminate..].
  exists b'. split; [reflexivity|].
  apply (X6_do_flip_idempotent initial_board BLACK (2, 4) b');
    [apply initial_board_wf | vm_compute; reflexivity | exact Happly].
Defined.

(** ** [parse_coordinate]: case, labels and trailing white space *)

Lemma lower_length s : String.length (lower s) = String.length s.
Proof. induction s as [|c s IH]; simpl; [done | by rewrite IH]. Qed.

Lemma ord_inj c c' : ord c = ord c' → c = c'.
Proof.
  unfold ord. intros H. apply N2Z.inj in H.
  rewrite <- (ascii_N_embedding c), <- (ascii_N_embedding c'). by rewrite H.
Qed.

Lemma lower_char_idemp c : lower_char (lower_char c) = lower_char c.
Proof.
  apply ord_inj. rewrite (ord_lower_char (lower_char c)), ord_lower_char.
  pose proof (ord_bounds c). case_tests; simpl in *; lia.
Qed.

Lemma lower_idemp s : lower (lower s) = lower s.
Proof.
  induction s as [|c s IH]; simpl; [done|].
  by rewrite lower_char_idemp, IH.
Qed.

Lemma parse_coordinate_lower s : parse_coordinate (lower s) = parse_coordinate s.
Proof.
  destruct (decide (String.length s = 2%nat)) as [Hlen|Hlen].
  - destruct s as [|c [|d [|e s]]]; try done. simpl lower.
    by rewrite !parse_coordinate_two, !lower_char_idemp.
  - rewrite !parse_coordinate_length; [done..|by rewrite lower_length].
Qed.

(** X7: [parse_coordinate] does not look at the case of its input: two
    strings with the same lower-case form give the same coordinate or the
    same error. *)
Theorem X7_parse_case_insensitive s t :
  lower s = lower t → parse_coordinate s = parse_coordinate t.
Proof.
  intros H. by rewrite <- (parse_coordinate_lower s), H, parse_coordinate_lower.
Qed.

Lemma X7_parse_case_insensitive_witness :
  parse_coordinate "E3" = parse_coordinate "e3".
Proof. apply (X7_parse_case_insensitive "E3" "e3"). reflexivity. Defined.





Lemma rstrip_all_space w : all_space w = true → rstrip w = EmptyString.
Proof.
  induction w as [|c w IH]; simpl; [done|].
  intros [Hc Hw]%andb_true_iff. by rewrite (IH Hw), Hc.
Qed.

Lemma rstrip_append s w : all_space w = true → rstrip (s +:+ w) = rstrip s.
Proof.
  intros Hw. induction s as [|c s IH]; simpl.
  - by apply rstrip_all_space.
  - by rewrite IH.
Qed.

Lemma rstrip_move_token s : is_move_token s → rstrip s = s.
Proof.
  intros (c & d & -> & _ & Hd). simpl.
  assert (is_space d = false) as ->; [|done].
  revert Hd. change (ord "1") with 49. change (ord "8") with 56.
  unfold is_space. intros Hd. case_tests; lia.
Qed.

(** X9: [rstrip] removes trailing white space and nothing else that
    matters to a move: for white space [w], [rstrip(s + w)] is [rstrip(s)],
    and a move token followed by white space (such as the line end that
    [next(input)] leaves) is parsed like the token alone. *)
Theorem X9_trailing_space_ignored s w :
  all_space w = true →
  rstrip (s +:+ w) = rstrip s
  ∧ (is_move_token s →
       parse_coordinate (rstrip (s +:+ w)) = parse_coordinate s).
Proof.
  intros Hw. split; [by apply rstrip_append|].
  intros Htok. by rewrite rstrip_append, rstrip_move_token.
Qed.

Lemma X9_trailing_space_ignored_witness :
  rstrip ("e3" +:+ newline) = rstrip "e3".
Proof. apply (X9_trailing_space_ignored "e3" newline). reflexivity. Defined.

(** ** Whose turn it is, and how much input was read *)

Lemma next_drop (inp : list (result string)) : (next inp).2 = drop 1 inp.
Proof. by destruct inp. Qed.

(** The player to move and the input left, read off the history. *)
Lemma reachable_turn_input inp evs s :
  reachable inp evs s →
  turn s = (if Nat.even (turns_taken evs) then BLACK else WHITE)
  ∧ input s = drop (lines_read evs) inp.
Proof.
  intros Hreach.
  induction Hreach as [s Hinit | evs s out ev s' Hreach [IHt IHi] Hbody].
  - unfold initial_state in Hinit. rewrite new_board_value in Hinit.
    by injection Hinit as <-.
  - destruct (reachable_invariant inp evs s Hreach) as (Hwf & _).
    apply loop_body_inv in Hbody; [|done].
    destruct ev; simpl in Hbody.
    + destruct Hbody as (_ & _ & ->). cbn [turn input].
      change (turns_taken (Skipped :: evs)) with (S (turns_taken evs)).
      change (lines_read (Skipped :: evs)) with (lines_read evs).
      rewrite Nat.even_succ, <- Nat.negb_even.
      split; [|done]. rewrite IHt. unfold other_player.
      by destruct (Nat.even _).
    + destruct Hbody as (_ & -> & _). cbn [turn input].
      change (turns_taken (ParseFailed :: evs)) with (turns_taken evs).
      change (lines_read (ParseFailed :: evs)) with (S (lines_read evs)).
      split; [done|].
      rewrite next_drop, IHi, drop_drop. f_equal. lia.
    + destruct Hbody as (_ & -> & _). cbn [turn input].
      change (turns_taken (Rejected :: evs)) with (turns_taken evs).
      change (lines_read (Rejected :: evs)) with (S (lines_read evs)).
      split; [done|].
      rewrite next_drop, IHi, drop_drop. f_equal. lia.
    + destruct Hbody as (_ & str & move & b' & _ & _ & _ & _ & ->). cbn [turn input].
      change (turns_taken (Applied :: evs)) with (S (turns_taken evs)).
      change (lines_read (Applied :: evs)) with (S (lines_read evs)).
      rewrite Nat.even_succ, <- Nat.negb_even.
      split.
      * rewrite IHt. unfold other_player. by destruct (Nat.even _).
      * rewrite next_drop, IHi, drop_drop. f_equal. lia.
Qed.

(** X10: at every loop head reached by [play_game], Black is to move
    exactly when an even number of passes so far applied a move or skipped
    a turn (rejected input does not pass the turn), and the input still to
    be read is the given input without one line for each pass that was not
    a skipped turn (a skipped turn reads no input). *)
Theorem X10_turn_and_input inp evs s :
  reachable inp evs s →
  turn s = (if Nat.even (turns_taken evs) then BLACK else WHITE)
  ∧ input s = drop (lines_read evs) inp.
Proof. apply reachable_turn_input. Qed.

Lemma X10_turn_and_input_witness :
  turn wipeout_state
  = (if Nat.even (turns_taken wipeout_events) then BLACK else WHITE)
  ∧ input wipeout_state = drop (lines_read wipeout_events) wipeout_input.
Proof.
  apply (X10_turn_and_input wipeout_input wipeout_events wipeout_state).
  exact wipeout_reachable.
Defined.

(** ** The depth of the recursion of [is_flippable_line] *)

Lemma is_flippable_line_rec_mono b color dr dc depth :
  ∀ depth' r c found v,
    (depth ≤ depth')%nat →
    is_flippable_line_rec depth b (r, c) color (dr, dc) found = Ok v →
    is_flippable_line_rec depth' b (r, c) color (dr, dc) found = Ok v.
Proof.
  induction depth as [|depth IH]; intros depth' r c found v Hle H; [done|].
  destruct depth' as [|depth']; [lia|]. simpl in *.
  destruct (in_bounds (r + dr) (c + dc)); simpl in *; [|done].
  destruct (board_get b (r + dr) (c + dc)) as [x|e|]; simpl in *; [|done..].
  destruct (decide (x = None)); [done|].
  destruct (decide (x = Some color)); [done|].
  apply IH; [lia | done].
Qed.

(** X11: on a board of 8 rows of 8 cells, from a move on the board and in
    any direction other than (0, 0), the recursion of [is_flippable_line]
    returns within 8 stack frames: every deeper stack gives the same
    boolean, and no [RecursionError] or [IndexError] is raised. *)
Theorem X11_recursion_depth b move color d depth :
  wf_board b → in_bounds move.1 move.2 = true → d ≠ (0, 0) →
  (8 ≤ depth)%nat →
  ∃ v, is_flippable_line_rec 8 b move color d false = Ok v
     ∧ is_flippable_line_rec depth b move color d false = Ok v
     ∧ is_flippable_line b move color d = Ok v.
Proof.
  intros Hwf Hin Hd Hdepth. destruct move as [r c], d as [dr dc].
  destruct (is_flippable_line_rec_total b color dr dc 7 Hwf 8 r c false)
    as [v Hv]; [lia | by apply ray_leaves_board|].
  exists v. split; [done|]. split.
  - by apply (is_flippable_line_rec_mono b color dr dc 8).
  - apply (is_flippable_line_rec_mono b color dr dc 8); [|done].
    pose proof recursion_limit_gt. lia.
Qed.

Lemma X11_recursion_depth_witness :
  ∃ v, is_flippable_line_rec 8 initial_board (2, 4) BLACK (1, 0) false = Ok v
     ∧ is_flippable_line initial_board (2, 4) BLACK (1, 0) = Ok v.
Proof.
  destruct (X11_recursion_depth initial_board (2, 4) BLACK (1, 0) 8)
    as (v & H1 & _ & H3);
    [apply initial_board_wf | reflexivity | discriminate | lia |].
  exists v. split; [exact H1 | exact H3].
Defined.

(** ** [find_adjacent] on any board *)

Lemma find_adjacent_loop_true b adjs opp :
  find_adjacent_loop b adjs opp = Ok true →
  ∃ p : Z * Z, p ∈ adjs ∧ board_get b p.1 p.2 = Ok (Some opp).
Proof.
  induction adjs as [|[r c] adjs IH]; simpl; [done|].
  destruct (board_get_cases b r c) as [[x Hx]|Hx]; rewrite Hx.
  - case_decide as Hc.
    + intros _. exists (r, c). split; [left | simpl; congruence].
    + intros H. destruct (IH H) as (p & Hp & Hget). exists p. split; [by right | done].
  - intros H. destruct (IH H) as (p & Hp & Hget). exists p. split; [by right | done].
Qed.

(** X12: [find_adjacent] never raises, whatever the board and the move:
    an index that is out of range is skipped.  It returns [True] exactly
    when one of the eight index pairs around the move reads, with Python's
    indexing, as a disc of the opponent. *)
Theorem X12_find_adjacent_iff b move color :
  ∃ v, find_adjacent b move color = Ok v
     ∧ (v = true ↔
          ∃ p : Z * Z, p ∈ adjacents move
            ∧ board_get b p.1 p.2 = Ok (Some (opponent color))).
Proof.
  destruct (find_adjacent_total b move color) as [v Hv].
  exists v. split; [done|]. split.
  - intros ->. by apply find_adjacent_loop_true in Hv.
  - intros ([r c] & Hp & Hget).
    assert (find_adjacent b move color = Ok true); [|congruence].
    by apply (find_adjacent_loop_hit b _ _ r c).
Qed.

(** ** What a move does to the discs already on the board *)

(** X13: a move that [valid_move] accepts removes no disc and fills one
    cell: every occupied cell stays occupied, a disc of the mover stays
    the mover's, and every empty cell other than the one played stays
    empty. *)
Theorem X13_move_keeps_discs b color move b' :
  wf_board b →
  valid_move b color move = Ok true →
  apply_move b color move = Ok b' →
  ∀ r c, in_bounds r c = true →
    (∀ x, board_get b r c = Ok (Some x) →
       ∃ y, board_get b' r c = Ok (Some y) ∧ (x = color → y = color))
    ∧ (board_get b r c = Ok None → (r, c) ≠ move → board_get b' r c = Ok None).
Proof.
  intros Hwf Hvalid Happly r c Hrc.
  destruct (valid_move_spec b color move Hwf) as (v & Hv & Hiff).
  rewrite Hvalid in Hv. injection Hv as <-.
  destruct (proj1 Hiff eq_refl) as (Hin & Hget & _).
  destruct (apply_move_cases b color move Hwf Hin Hget)
    as (b'' & Happly' & _ & Hcells).
  rewrite Happly in Happly'. injection Happly' as <-.
  pose proof (opponent_neq color) as Hopp.
  destruct (Hcells (r, c) Hrc) as [[Hp Hc]|(Hne & Hnf & Hc)]; simpl in Hc.
  - split.
    + intros x _. exists color. done.
    + intros Hnone Hnm. destruct Hp as [Hp|Hp]; [done|].
      destruct Hp as (d & n & k & _ & _ & [Hrun _] & Hk & Heq).
      destruct (Hrun k Hk) as [_ Hgetk]. rewrite <- Heq in Hgetk. simpl in Hgetk.
      congruence.
  - split.
    + intros x Hx. exists x. split; [congruence | done].
    + intros Hnone _. congruence.
Qed.

Lemma X13_move_keeps_discs_witness :
  ∃ b', apply_move initial_board BLACK (2, 4) = Ok b'
      ∧ ∃ y, board_get b' 3 3 = Ok (Some y) ∧ (BLACK = BLACK → y = BLACK).
Proof.
  destruct (apply_move initial_board BLACK (2, 4)) as [b'| |] eqn:Happly;
    [|vm_compute in Happly; discriminate..].
  exists b'. split; [reflexivity|].
  apply (proj1 (X13_move_keeps_discs initial_board BLACK (2, 4) b'
                  initial_board_wf ltac:(vm_compute; reflexivity) Happly 3 3
                  ltac:(reflexivity)) BLACK).
  reflexivity.
Defined.

(** ** [board_str]: where each cell is shown *)

Lemma position_str_char x :
  position_str x = String (position_char x) EmptyString.
Proof. by destruct x as [[]|]. Qed.

Ltac explode_list l :=
  destruct l as [|? [|? [|? [|? [|? [|? [|? [|? [|? ?]]]]]]]]]; try discriminate.

(** X14: for a board of 8 rows of 8 cells [board_str] returns 162
    characters, the header line and 8 lines of 18 characters, and the cell
    (r, c) is shown at offset [18 * (r + 1) + 2 + 2 * c] as "B", "W" or a
    blank; so the text determines the board. *)
Theorem X14_board_str_cells b r c :
  wf_board b → in_bounds r c = true →
  String.length (board_str b) = 162%nat
  ∧ ∃ x, board_get b r c = Ok x
       ∧ String.get (Z.to_nat (18 * (r + 1) + 2 + 2 * c)) (board_str b)
         = Some (position_char x).
Proof.
  intros [Hlen Hrows] Hin. explode_list b.
  repeat (apply Forall_cons in Hrows as [? Hrows]).
  repeat match goal with
         | H : length ?l = 8%nat |- _ => is_var l; explode_list l; clear H
         end.
  unfold board_str. cbn -[position_str pretty String.append String.concat].
  cbn [String.concat map]. rewrite !position_str_char.
  match goal with
  | |- context [String.get _ ?s] =>
      let s' := eval vm_compute in s in
      replace s with s' by (vm_compute; reflexivity)
  end.
  split; [reflexivity|].
  apply in_bounds_true in Hin.
  assert (r = 0 ∨ r = 1 ∨ r = 2 ∨ r = 3 ∨ r = 4 ∨ r = 5 ∨ r = 6 ∨ r = 7) as Hr by lia.
  assert (c = 0 ∨ c = 1 ∨ c = 2 ∨ c = 3 ∨ c = 4 ∨ c = 5 ∨ c = 6 ∨ c = 7) as Hc by lia.
  destruct Hr as [->|[->|[->|[->|[->|[->|[->| ->]]]]]]];
    destruct Hc as [->|[->|[->|[->|[->|[->|[->| ->]]]]]]];
    (eexists; split; [reflexivity | vm_compute; reflexivity]).
Qed.

Lemma X14_board_str_cells_witness :
  String.length (board_str initial_board) = 162%nat
  ∧ ∃ x, board_get initial_board 3 4 = Ok x
       ∧ String.get (Z.to_nat (18 * (3 + 1) + 2 + 2 * 4)) (board_str initial_board)
         = Some (position_char x).
Proof.
  apply (X14_board_str_cells initial_board 3 4); [apply initial_board_wf | reflexivity].
Defined.

(** ** The two colours are treated alike *)

Lemma opponent_involutive color : opponent (opponent color) = color.
Proof. by destruct color. Qed.

Lemma swap_cell_involutive x : swap_cell (swap_cell x) = x.
Proof. destruct x as [c|]; simpl; [|done]. by rewrite opponent_involutive. Qed.

Lemma getitem_fmap {A B} (f : A → B) (l : list A) i :
  getitem (f <$> l) i
  = match getitem l i with
    | Ok x => Ok (f x)
    | Raise e => Raise e
    | Timeout => Timeout
    end.
Proof.
  unfold getitem. rewrite length_fmap.
  destruct (py_index (Z.of_nat (length l)) i) as [k|]; [|done].
  rewrite list_lookup_fmap. by destruct (l !! k).
Qed.

Lemma board_get_swap b r c :
  board_get (swap_board b) r c
  = match board_get b r c with
    | Ok x => Ok (swap_cell x)
    | Raise e => Raise e
    | Timeout => Timeout
    end.
Proof.
  unfold board_get, swap_board. rewrite getitem_fmap.
  destruct (getitem b r) as [row|e|]; simpl; [|done..].
  apply getitem_fmap.
Qed.

Lemma swap_board_wf b : wf_board b → wf_board (swap_board b).
Proof.
  intros [Hlen Hrows]. unfold swap_board. split; [by rewrite length_fmap|].
  apply Forall_fmap. eapply Forall_impl; [exact Hrows|].
  intros row Hrow. simpl. by rewrite length_fmap.
Qed.

Lemma cell_is_swap b p x :
  cell_is b p x → cell_is (swap_board b) p (swap_cell x).
Proof. intros [Hin Hget]. split; [done|]. by rewrite board_get_swap, Hget. Qed.

Lemma bookended_swap b move color d n :
  bookended b move color d n →
  bookended (swap_board b) move (opponent color) d n.
Proof.
  intros [Hrun Hend]. split.
  - intros k Hk. rewrite opponent_involutive.
    pose proof (cell_is_swap b _ _ (Hrun k Hk)) as H.
    change (swap_cell (Some (opponent color)))
      with (Some (opponent (opponent color))) in H.
    by rewrite opponent_involutive in H.
  - exact (cell_is_swap b _ (Some color) Hend).
Qed.

Lemma swap_board_involutive b : swap_board (swap_board b) = b.
Proof.
  unfold swap_board. rewrite <- list_fmap_compose.
  rewrite <- (list_fmap_id b) at 2. apply list_fmap_ext. intros _ row _. simpl.
  rewrite <- list_fmap_compose. rewrite <- (list_fmap_id row) at 2.
  apply list_fmap_ext. intros _ x _. apply swap_cell_involutive.
Qed.

Lemma count_row_swap c row :
  count_row c (swap_cell <$> row) = count_row (opponent c) row.
Proof.
  induction row as [|x row IH]; [done|].
  rewrite fmap_cons. cbn [count_row]. rewrite IH. f_equal.
  unfold holds. destruct x as [[]|], c; done.
Qed.

Lemma count_color_swap c b :
  count_color c (swap_board b) = count_color (opponent c) b.
Proof.
  induction b as [|row b IH]; [done|].
  unfold swap_board in *. rewrite fmap_cons. cbn [count_color].
  by rewrite IH, count_row_swap.
Qed.

(** X15: the code treats the two colours alike.  On the board with all
    colours exchanged, [valid_move] accepts for the opponent exactly the
    moves it accepts for [color] on the board itself (a board of 8 rows of
    8 cells), and the tally of [count_tokens_and_determine_winner] is the
    exchanged pair. *)
Theorem X15_colour_symmetry b color move :
  wf_board b →
  valid_move (swap_board b) (opponent color) move = valid_move b color move
  ∧ count_tokens (swap_board b) = ((count_tokens b).2, (count_tokens b).1).
Proof.
  intros Hwf. split; [|by rewrite !count_tokens_eq, !count_color_swap].
  assert (∀ b0 col, wf_board b0 →
            valid_move b0 col move = Ok true →
            valid_move (swap_board b0) (opponent col) move = Ok true) as Hone.
  { intros b0 col Hwf0 Hvalid.
    destruct (valid_move_spec b0 col move Hwf0) as (v & Hv & Hiff).
    rewrite Hvalid in Hv. injection Hv as <-.
    destruct (proj1 Hiff eq_refl) as (Hin & Hget & d & Hd & n & Hn & Hbk).
    destruct (valid_move_spec (swap_board b0) (opponent col) move
                (swap_board_wf b0 Hwf0)) as (v' & Hv' & Hiff').
    rewrite Hv'. f_equal. apply Hiff'. split; [done|]. split.
    - by rewrite board_get_swap, Hget.
    - exists d. split; [done|]. exists n. split; [done|]. by apply bookended_swap. }
  destruct (valid_move_spec b color move Hwf) as (v & Hv & _).
  destruct (valid_move_spec (swap_board b) (opponent color) move
              (swap_board_wf b Hwf)) as (v' & Hv' & _).
  destruct v; [rewrite Hv; by apply Hone|]. destruct v'; [|congruence].
  apply Hone in Hv'; [|by apply swap_board_wf].
  rewrite swap_board_involutive, opponent_involutive in Hv'. congruence.
Qed.

Lemma X15_colour_symmetry_witness :
  valid_move (swap_board initial_board) (opponent BLACK) (2, 4)
  = valid_move initial_board BLACK (2, 4).
Proof.
  apply (X15_colour_symmetry initial_board BLACK (2, 4)), initial_board_wf.
Defined.

(** ** The loop ends on every finite input *)

(** Every pass that read a line found one, and a skipped turn never
    follows a skipped turn. *)
Lemma reachable_history_bound inp evs s :
  reachable inp evs s →
  (lines_read evs ≤ length inp)%nat
  ∧ (length evs
     ≤ 2 * lines_read evs + (if decide (head evs = Some Skipped) then 1 else 0))%nat.
Proof.
  intros Hreach.
  induction Hreach as [s Hinit | evs s out ev s' Hreach [IHl IHn] Hbody].
  - change (lines_read []) with 0%nat. simpl. split; lia.
  - destruct (reachable_invariant inp evs s Hreach) as (Hwf & _ & Hskip).
    destruct (reachable_turn_input inp evs s Hreach) as [_ Hinput].
    apply loop_body_inv in Hbody; [|done].
    assert ((∃ x, (next (input s)).1 = x ∧ x ≠ Raise StopIteration) →
            (lines_read evs < length inp)%nat) as Hline.
    { intros (x & Hx & Hne). rewrite Hinput in Hx.
      destruct (decide (lines_read evs < length inp)%nat); [done|].
      rewrite drop_ge in Hx by lia. simpl in Hx. congruence. }
    destruct ev; simpl in Hbody.
    + destruct Hbody as (_ & Hlt & _).
      change (lines_read (Skipped :: evs)) with (lines_read evs).
      split; [done|]. simpl.
      case_decide; [lia|]. lia.
    + destruct Hbody as (_ & _ & msg & Hmsg).
      change (lines_read (ParseFailed :: evs)) with (S (lines_read evs)).
      split.
      * apply Hline. destruct Hmsg as [Hm|(str & Hm & _)]; eexists; (split; [exact Hm | done]).
      * simpl. case_decide; lia.
    + destruct Hbody as (_ & _ & str & move & Hm & _).
      change (lines_read (Rejected :: evs)) with (S (lines_read evs)).
      split.
      * apply Hline. eexists. split; [exact Hm | done].
      * simpl. case_decide; lia.
    + destruct Hbody as (_ & str & move & b' & Hm & _).
      change (lines_read (Applied :: evs)) with (S (lines_read evs)).
      split.
      * apply Hline. eexists. split; [exact Hm | done].
      * simpl. case_decide; lia.
Qed.

(** X16: [play_game] leaves its loop on every finite input.  A run that
    is given [length inp] lines makes at most [2 * length inp + 1] passes
    that continue the loop: every pass that is not a skipped turn uses up
    one line, and two skipped turns never follow each other without
    ending the game.  At most 60 of the passes apply a move. *)
Theorem X16_loop_terminates inp evs s :
  reachable inp evs s →
  (length evs ≤ 2 * length inp + 1)%nat
  ∧ (lines_read evs ≤ length inp)%nat
  ∧ moves_applied evs ≤ 60
  ∧ (∀ evs', evs ≠ Skipped :: Skipped :: evs').
Proof.
  intros Hreach.
  destruct (reachable_history_bound inp evs s Hreach) as [Hl Hn].
  destruct (reachable_invariant inp evs s Hreach) as (Hwf & Hocc & _).
  pose proof (occupied_bounds _ Hwf).
  split; [case_decide; lia|]. split; [done|]. split; [lia|].
  intros evs' ->. inversion Hreach as [|evs0 s0 out ev s1 Hreach0 Hbody]; subst.
  destruct (reachable_invariant inp _ s0 Hreach0) as (Hwf0 & _ & Hskip0).
  apply loop_body_inv in Hbody; [|done]. simpl in Hbody, Hskip0.
  destruct Hbody as (_ & Hlt & _). lia.
Qed.

Lemma X16_loop_terminates_witness :
  (length wipeout_events ≤ 2 * length wipeout_input + 1)%nat
  ∧ (lines_read wipeout_events ≤ length wipeout_input)%nat.
Proof.
  destruct (X16_loop_terminates wipeout_input wipeout_events wipeout_state
              wipeout_reachable) as (H1 & H2 & _).
  split; [exact H1 | exact H2].
Defined.

(** ** The game ends only when neither player can move *)

(** Right after a skipped turn, the player who was skipped has no valid
    move on the board at the head of the loop. *)
Lemma reachable_after_skip inp evs s :
  reachable inp evs s →
  head evs = Some Skipped →
  no_valid_moves (board s) (other_player (turn s)) = Ok true.
Proof.
  intros Hreach Hhead.
  inversion Hreach as [|evs0 s0 out ev s1 Hreach0 Hbody]; subst; [done|].
  injection Hhead as ->.
  destruct (reachable_invariant inp _ s0 Hreach0) as (Hwf0 & _).
  apply loop_body_inv in Hbody; [|done]. simpl in Hbody.
  destruct Hbody as (Hnv & _ & ->). simpl.
  unfold other_player. by destruct (turn s0).
Qed.

(** X17: when a run of [play_game] prints the winner and leaves the loop,
    neither Black nor White has a valid move on the final board. *)
Theorem X17_game_over_no_moves inp evs s out :
  reachable inp evs s →
  loop_body s = (out, Leave GameOver) →
  no_valid_moves (board s) BLACK = Ok true
  ∧ no_valid_moves (board s) WHITE = Ok true.
Proof.
  intros Hreach Hbody.
  destruct (reachable_invariant inp evs s Hreach) as (Hwf & _ & Hskip).
  pose proof (loop_body_inv s out _ Hwf Hbody) as (Hnv & Hge & _).
  assert (head evs = Some Skipped) as Hhead by (case_decide; [done | lia]).
  pose proof (reachable_after_skip inp evs s Hreach Hhead) as Hother.
  unfold other_player in Hother. destruct (turn s); simpl in Hother; done.
Qed.

Lemma X17_game_over_no_moves_witness :
  no_valid_moves (board wipeout_state) BLACK = Ok true
  ∧ no_valid_moves (board wipeout_state) WHITE = Ok true.
Proof.
  apply (X17_game_over_no_moves wipeout_input wipeout_events wipeout_state _
           wipeout_reachable wipeout_game_over).
Defined.

(** ** [do_flip] on its own *)

(** X18: [do_flip] checks every direction itself, so on a board of 8 rows
    of 8 cells it is safe for any move on the board, accepted by
    [valid_move] or not: it raises nothing, returns a board of the same
    shape, and only moves [F >= 0] discs from the opponent to [color];
    when [F] is 0 the board is returned as it was. *)
Theorem X18_do_flip_safe b color move :
  wf_board b → in_bounds move.1 move.2 = true →
  ∃ b' (F : Z),
    do_flip b color move = Ok b'
    ∧ wf_board b'
    ∧ 0 ≤ F
    ∧ count_color color b' = count_color color b + F
    ∧ count_color (opponent color) b' = count_color (opponent color) b - F
    ∧ occupied b' = occupied b
    ∧ (F = 0 → b' = b).
Proof.
  intros Hwf Hin.
  destruct (do_flip_loop_counts color move Hin directions b directions_nonzero Hwf)
    as (b' & F & Hloop & Hwf' & Hc1 & Hc2 & Hsame).
  exists b', (Z.of_nat F). split; [done|]. split; [done|]. split; [lia|].
  split; [done|]. split; [done|]. split.
  - rewrite !(occupied_color _ color). lia.
  - intros HF. apply Hsame. lia.
Qed.

Lemma X18_do_flip_safe_witness :
  ∃ b' (F : Z), do_flip initial_board BLACK (0, 0) = Ok b' ∧ wf_board b' ∧ 0 ≤ F.
Proof.
  destruct (X18_do_flip_safe initial_board BLACK (0, 0))
    as (b' & F & H1 & H2 & H3 & _); [apply initial_board_wf | reflexivity |].
  exists b', F. split; [exact H1 | split; [exact H2 | exact H3]].
Defined.
